(** * ReplicasConnections: the client-side replica multiplexer

    A shallow embedding of [dbms/src/Client/ReplicasConnections.cpp].

    The coordinator keeps one [Replica] per connection in a hash table keyed
    by socket descriptor, polls the sockets of the valid replicas, picks one
    readable replica and reads packets from it until one of them is the
    packet the caller is waiting for.

    The code talks to three collaborators that are not part of the file:
    the connections (a packet stream each), the socket readiness primitive
    and the connection pool.  They are modelled by a [World]: what every
    connection will still deliver, what every future [select] will report,
    and the trace of the calls made on the connections so far.  Exceptions
    leave the coordinator in the state it had when they were thrown, so
    every operation returns its result together with the coordinator and
    the world. *)

From Stdlib Require Import ZArith Lia String Ascii Bool.
From stdpp Require Import base numbers list.

Local Open Scope Z_scope.

(** * The program *)

(** ** Protocol and collaborators *)

(** Modelled from the spec: the [Protocol::Server] packet types are declared
    in a header that is not part of the sources; the type of a packet is one
    of the seven the code names, or any other value. *)
Inductive PacketType : Type :=
| Data
| Progress
| ProfileInfo
| Totals
| Extremes
| EndOfStream
| Exception
| Unrecognized (tag : N).

(** A packet: its type and, for what the coordinator does, an opaque
    payload. *)
Record Packet : Type := mkPacket { type : PacketType; payload : Z }.

(** Modelled from the spec: [Connection] is an external collaborator.  A
    connection is known by the descriptor of its socket, which is its
    identity, and the address of its server. *)
Record Connection : Type := mkConnection {
  sockfd : Z;
  getServerAddress : string
}.

(** The payload of one replica, opaque to the coordinator. *)
Definition ExternalTablesData : Type := Z.

(** The exceptions: the three of the coordinator, and the failure of a read
    on a connection. *)
Inductive ErrorCode : Type :=
| NO_AVAILABLE_REPLICA
| UNEXPECTED_REPLICA
| MISMATCH_REPLICAS_DATA_SOURCES
| NETWORK_ERROR.

(** A value, or the exception that was thrown. *)
Inductive Result (A : Type) : Type :=
| Ok (a : A)
| Throw (e : ErrorCode).
Arguments Ok {A} a.
Arguments Throw {A} e.

(** What the coordinator does to its collaborators, in order. *)
Inductive Event : Type :=
| EvSelect (read_list : list Z)
| EvReceivePacket (c : Z) (packet : Packet)
| EvSendQuery (c : Z) (query query_id : string) (stage : Z) (with_pending_data : bool)
| EvSendCancel (c : Z)
| EvDisconnect (c : Z)
| EvSendExternalTablesData (c : Z) (data : ExternalTablesData).

(** The collaborators.  Sending on a connection and closing it succeed and
    are only recorded in the trace. *)
Record World : Type := mkWorld {
  (** the packets each connection will still deliver, next one first *)
  incoming : Z -> list Packet;
  (** [readable n fd]: the [n]-th call of [select] finds [fd] readable *)
  readable : nat -> Z -> bool;
  (** number of calls of [select] made so far *)
  polls : nat;
  trace : list Event
}.

(** A call on a connection that only shows in the trace. *)
Definition emit (ev : Event) (w : World) : World :=
  {| incoming := incoming w; readable := readable w; polls := polls w;
     trace := trace w ++ [ev] |}.

(** [Connection::receivePacket]: the next packet of the stream; a connection
    with nothing left to deliver fails the read. *)
Definition conn_receivePacket (c : Connection) (w : World) : Result Packet * World :=
  match incoming w (sockfd c) with
  | [] => (Throw NETWORK_ERROR, w)
  | packet :: rest =>
      (Ok packet,
       {| incoming := fun c' => if c' =? sockfd c then rest else incoming w c';
          readable := readable w; polls := polls w;
          trace := trace w ++ [EvReceivePacket (sockfd c) packet] |})
  end.

(** [Poco::Net::Socket::select] with empty write and exception lists: the
    read list is cut down to the sockets that are readable. *)
Definition select (read_list : list Z) (w : World) : list Z * World :=
  (List.filter (readable w (polls w)) read_list,
   {| incoming := incoming w; readable := readable w; polls := S (polls w);
      trace := trace w ++ [EvSelect read_list] |}).

(** ** Data model *)

(** The largest [int]. *)
Definition INT_MAX : Z := 2147483647.

(** [++] on an [int]: the value wraps around past [INT_MAX]. *)
Definition int_incr (x : Z) : Z := (x + 1 + 2 ^ 31) mod 2 ^ 32 - 2 ^ 31.

Module Replica.
(** Modelled from the spec: the struct is declared in the header, which is
    not part of the sources.  A new replica is valid, not readable and
    expects packet 0; the counter is compared with an [int] in
    [pickConnection]. *)
Record t : Type := mk {
  connection : Connection;
  next_packet_number : Z;
  can_read : bool;
  is_valid : bool
}.

Definition new (c : Connection) : t :=
  {| connection := c; next_packet_number := 0; can_read := false; is_valid := true |}.

Definition set_can_read (b : bool) (r : t) : t :=
  {| connection := connection r; next_packet_number := next_packet_number r;
     can_read := b; is_valid := is_valid r |}.

Definition set_is_valid (b : bool) (r : t) : t :=
  {| connection := connection r; next_packet_number := next_packet_number r;
     can_read := can_read r; is_valid := b |}.

Definition incr_next_packet_number (r : t) : t :=
  {| connection := connection r; next_packet_number := int_incr (next_packet_number r);
     can_read := can_read r; is_valid := is_valid r |}.
End Replica.

(** The coordinator.  [replica_hash] lists the entries of the hash table in
    its iteration order, which is unspecified but fixed; a reference to a
    replica is the position of its entry.  Modelled from the spec: the
    members are declared in the header; [valid_replicas_count] is an integer
    and [next_packet_number] an [int] that starts at 0. *)
Record ReplicasConnections : Type := mkReplicasConnections {
  replica_hash : list (Z * Replica.t);
  valid_replicas_count : Z;
  next_packet_number : Z
}.

(** The coordinator with another table. *)
Definition with_replica_hash (h : list (Z * Replica.t)) (s : ReplicasConnections) :=
  {| replica_hash := h; valid_replicas_count := valid_replicas_count s;
     next_packet_number := next_packet_number s |}.

(** A write to the replica of an entry; the key stays. *)
Definition on_replica (f : Replica.t -> Replica.t) (e : Z * Replica.t) : Z * Replica.t :=
  (e.1, f e.2).

(** Write through the reference [i]. *)
Definition update_replica (i : nat) (f : Replica.t -> Replica.t) (s : ReplicasConnections) :=
  with_replica_hash (alter (on_replica f) i (replica_hash s)) s.

(** ** Construction *)

(** [unordered_map::insert]: an entry whose key is already present is not
    inserted. *)
Fixpoint hash_insert (fd : Z) (r : Replica.t) (h : list (Z * Replica.t)) : list (Z * Replica.t) :=
  match h with
  | [] => [(fd, r)]
  | e :: h' => if e.1 =? fd then e :: h' else e :: hash_insert fd r h'
  end.

(** The constructor, given the connections [pool_->getMany(settings)]
    returned. *)
Definition construct (entries : list Connection) : ReplicasConnections :=
  {| replica_hash :=
       fold_left (fun h c => hash_insert (sockfd c) (Replica.new c) h) entries [];
     valid_replicas_count := Z.of_nat (length entries);
     next_packet_number := 0 |}.

(** ** Readiness *)

(** [replica_hash.find(fd)] followed by [can_read = true]; [None] when the
    descriptor is not a key of the table. *)
Fixpoint find_mark (fd : Z) (h : list (Z * Replica.t)) : option (list (Z * Replica.t)) :=
  match h with
  | [] => None
  | e :: h' =>
      if e.1 =? fd then Some (on_replica (Replica.set_can_read true) e :: h')
      else cons e <$> find_mark fd h'
  end.

(** The second loop of [waitForReadEvent]; [false] when a socket cannot be
    mapped back to a replica. *)
Fixpoint mark_readable (ready : list Z) (h : list (Z * Replica.t)) : list (Z * Replica.t) * bool :=
  match ready with
  | [] => (h, true)
  | fd :: ready' =>
      match find_mark fd h with
      | Some h' => mark_readable ready' h'
      | None => (h, false)
      end
  end.

(** The first loop resets [can_read] everywhere and collects the sockets of
    the valid replicas; [n] is the number of sockets [select] left in the
    read list. *)
Definition waitForReadEvent (s : ReplicasConnections) (w : World)
  : Result Z * ReplicasConnections * World :=
  if valid_replicas_count s =? 0 then (Ok 0, s, w)
  else
    let read_list :=
      map (fun e => sockfd (Replica.connection e.2))
          (List.filter (fun e => Replica.is_valid e.2) (replica_hash s)) in
    let h1 := map (on_replica (Replica.set_can_read false)) (replica_hash s) in
    let '(ready, w1) := select read_list w in
    let n := Z.of_nat (length ready) in
    match mark_readable ready h1 with
    | (h2, true) => (Ok n, with_replica_hash h2 s, w1)
    | (h2, false) => (Throw UNEXPECTED_REPLICA, with_replica_hash h2 s, w1)
    end.

(** ** Selection *)

(** The loop of [pickConnection] from position [i] on, with the running
    maximum and the replica chosen so far. *)
Fixpoint pick_loop (h : list (Z * Replica.t)) (i : nat) (max_packet_number : Z)
    (res : option nat) : option nat :=
  match h with
  | [] => res
  | e :: h' =>
      if Replica.can_read e.2 && (max_packet_number <? Replica.next_packet_number e.2)
      then pick_loop h' (S i) (Replica.next_packet_number e.2) (Some i)
      else pick_loop h' (S i) max_packet_number res
  end.

(** The result is the position of the replica the function returns a
    reference to. *)
Definition pickConnection (s : ReplicasConnections) (w : World)
  : Result nat * ReplicasConnections * World :=
  match waitForReadEvent s w with
  | (Throw e, s1, w1) => (Throw e, s1, w1)
  | (Ok n, s1, w1) =>
      let res := if 0 <? n then pick_loop (replica_hash s1) 0%nat (-1) None else None in
      match res with
      | None => (Throw NO_AVAILABLE_REPLICA, s1, w1)
      | Some i => (Ok i, s1, w1)
      end
  end.

(** ** Broadcast operations *)

(** The query goes to every replica, valid or not. *)
Definition sendQuery (query query_id : string) (stage : Z) (with_pending_data : bool)
    (s : ReplicasConnections) (w : World) : World :=
  fold_left
    (fun w e =>
       emit (EvSendQuery (sockfd (Replica.connection e.2)) query query_id stage
               with_pending_data) w)
    (replica_hash s) w.

(** Only the valid replicas are closed; [is_valid] is not written. *)
Definition disconnect (s : ReplicasConnections) (w : World) : World :=
  fold_left
    (fun w e =>
       if Replica.is_valid e.2
       then emit (EvDisconnect (sockfd (Replica.connection e.2))) w
       else w)
    (replica_hash s) w.

(** Only the valid replicas are sent the cancel. *)
Definition sendCancel (s : ReplicasConnections) (w : World) : World :=
  fold_left
    (fun w e =>
       if Replica.is_valid e.2
       then emit (EvSendCancel (sockfd (Replica.connection e.2))) w
       else w)
    (replica_hash s) w.

(** ** Residual drain *)

(** The [while (again)] loop on one connection, along the packets the
    connection still delivers: the result is [caught_exceptions], with what
    is left of the stream and the trace. *)
Fixpoint drain_stream (c : Z) (pending : list Packet) (tr : list Event) (caught_exceptions : bool)
  : Result bool * list Packet * list Event :=
  match pending with
  | [] => (Throw NETWORK_ERROR, [], tr)
  | packet :: rest =>
      let tr := tr ++ [EvReceivePacket c packet] in
      match type packet with
      | Data | Progress | ProfileInfo | Totals | Extremes =>
          drain_stream c rest tr caught_exceptions
      | EndOfStream => (Ok caught_exceptions, rest, tr)
      | Exception => (Ok true, rest, tr)
      | Unrecognized _ => (Ok true, rest, tr)
      end
  end.

(** The same loop, on the world. *)
Definition drain_connection (c : Connection) (caught_exceptions : bool) (w : World)
  : Result bool * World :=
  let '(res, rest, tr) :=
    drain_stream (sockfd c) (incoming w (sockfd c)) (trace w) caught_exceptions in
  (res,
   {| incoming := fun c' => if c' =? sockfd c then rest else incoming w c';
      readable := readable w; polls := polls w; trace := tr |}).

(** The [for] loop of [drainResidualPackets]; an exception of a read leaves
    the loop. *)
Fixpoint drain_replicas (h : list (Z * Replica.t)) (caught_exceptions : bool) (w : World)
  : Result bool * World :=
  match h with
  | [] => (Ok caught_exceptions, w)
  | e :: h' =>
      if Replica.is_valid e.2 then
        match drain_connection (Replica.connection e.2) caught_exceptions w with
        | (Ok caught, w') => drain_replicas h' caught w'
        | (Throw err, w') => (Throw err, w')
        end
      else drain_replicas h' caught_exceptions w
  end.

(** Nothing is done with [caught_exceptions] at the end. *)
Definition drainResidualPackets (s : ReplicasConnections) (w : World) : Result unit * World :=
  match drain_replicas (replica_hash s) false w with
  | (Ok _, w') => (Ok tt, w')
  | (Throw err, w') => (Throw err, w')
  end.

(** ** Receiving *)

(** [replica.is_valid = false; --valid_replicas_count;] *)
Definition invalidate (i : nat) (s : ReplicasConnections) : ReplicasConnections :=
  {| replica_hash := alter (on_replica (Replica.set_is_valid false)) i (replica_hash s);
     valid_replicas_count := valid_replicas_count s - 1;
     next_packet_number := next_packet_number s |}.

(** [++next_packet_number] of the coordinator. *)
Definition incr_next_packet_number (s : ReplicasConnections) : ReplicasConnections :=
  {| replica_hash := replica_hash s;
     valid_replicas_count := valid_replicas_count s;
     next_packet_number := int_incr (next_packet_number s) |}.

(** The [switch] of [receivePacket] on the packet read from replica [i]; the
    result is the [retry] flag. *)
Definition handle_packet (i : nat) (packet : Packet) (s : ReplicasConnections) (w : World)
  : Result bool * ReplicasConnections * World :=
  match type packet with
  | Data | Progress | ProfileInfo | Totals | Extremes => (Ok false, s, w)
  | EndOfStream | Exception =>
      let s1 := invalidate i s in
      let w1 := sendCancel s1 w in
      match drainResidualPackets s1 w1 with
      | (Ok _, w2) => (Ok false, s1, w2)
      | (Throw err, w2) => (Throw err, s1, w2)
      end
  | Unrecognized _ =>
      let s1 := invalidate i s in
      (Ok (0 <? valid_replicas_count s1), s1, w)
  end.

(** One turn of the inner loop on the replica at [i], whose fields were
    [replica] at the loop test; only its [is_valid] is written before the
    counters are compared.  [Some packet] is [return packet]. *)
Definition receive_iteration (i : nat) (replica : Replica.t) (s : ReplicasConnections) (w : World)
  : Result (option Packet) * ReplicasConnections * World :=
  match conn_receivePacket (Replica.connection replica) w with
  | (Throw err, w1) => (Throw err, s, w1)
  | (Ok packet, w1) =>
      match handle_packet i packet s w1 with
      | (Throw err, s2, w2) => (Throw err, s2, w2)
      | (Ok retry, s2, w2) =>
          if (Replica.next_packet_number replica =? next_packet_number s2) && negb retry
          then (Ok (Some packet),
                incr_next_packet_number (update_replica i Replica.incr_next_packet_number s2),
                w2)
          else (Ok None, update_replica i Replica.incr_next_packet_number s2, w2)
      end
  end.

(** A loop that is cut off after [fuel] turns. *)
Inductive Fueled (A : Type) : Type :=
| Done (r : Result A)
| OutOfFuel.
Arguments Done {A} r.
Arguments OutOfFuel {A}.

(** [while (replica.is_valid)]; [Ok None] when the loop is left because the
    replica is not valid any more.  A position outside the table, which
    [pickConnection] never returns, reads as a replica that is not valid. *)
Fixpoint receive_loop (fuel : nat) (i : nat) (s : ReplicasConnections) (w : World)
  : Fueled (option Packet) * ReplicasConnections * World :=
  match replica_hash s !! i with
  | None => (Done (Ok None), s, w)
  | Some e =>
      if Replica.is_valid e.2 then
        match fuel with
        | O => (OutOfFuel, s, w)
        | S fuel' =>
            match receive_iteration i e.2 s w with
            | (Ok None, s', w') => receive_loop fuel' i s' w'
            | (res, s', w') => (Done res, s', w')
            end
        end
      else (Done (Ok None), s, w)
  end.

(** [while (true)] *)
Fixpoint receivePacket (fuel : nat) (s : ReplicasConnections) (w : World)
  : Fueled Packet * ReplicasConnections * World :=
  match fuel with
  | O => (OutOfFuel, s, w)
  | S fuel' =>
      match pickConnection s w with
      | (Throw err, s1, w1) => (Done (Throw err), s1, w1)
      | (Ok i, s1, w1) =>
          match receive_loop fuel' i s1 w1 with
          | (OutOfFuel, s2, w2) => (OutOfFuel, s2, w2)
          | (Done (Throw err), s2, w2) => (Done (Throw err), s2, w2)
          | (Done (Ok (Some packet)), s2, w2) => (Done (Ok packet), s2, w2)
          | (Done (Ok None), s2, w2) => receivePacket fuel' s2 w2
          end
      end
  end.

(** ** External tables and diagnostics *)

(** The character ['\0']. *)
Definition NUL : ascii := Ascii.zero.

(** The body of the loop of [dumpAddresses]: the stream, and [prefix] as the
    body leaves it. *)
Definition dump_entry (os : string) (e : Z * Replica.t) : string * ascii :=
  let prefix := NUL in
  if Replica.is_valid e.2 then
    (String.append os (String prefix (getServerAddress (Replica.connection e.2))),
     if Ascii.eqb prefix NUL then ";"%char else prefix)
  else (os, prefix).

(** [prefix] is declared in the body of the loop, so what the body leaves
    in it is lost at the end of every turn. *)
Definition dumpAddresses (s : ReplicasConnections) : string :=
  if valid_replicas_count s =? 0 then EmptyString
  else fold_left (fun os e => (dump_entry os e).1) (replica_hash s) EmptyString.

(** The loop of [sendExternalTablesData], [it] running along [data]; the
    caller has checked that [data] is as long as the table. *)
Fixpoint send_tables (h : list (Z * Replica.t)) (it : list ExternalTablesData) (w : World) : World :=
  match h, it with
  | e :: h', d :: it' =>
      send_tables h' it'
        (emit (EvSendExternalTablesData (sockfd (Replica.connection e.2)) d) w)
  | _, _ => w
  end.

(** The sizes are compared before anything is sent. *)
Definition sendExternalTablesData (data : list ExternalTablesData)
    (s : ReplicasConnections) (w : World) : Result unit * World :=
  if negb (Nat.eqb (length data) (length (replica_hash s)))
  then (Throw MISMATCH_REPLICAS_DATA_SOURCES, w)
  else (Ok tt, send_tables (replica_hash s) data w).

(** ** Sessions *)

(** The member functions a client of the class may call. *)
Inductive Call : Type :=
| CallWaitForReadEvent
| CallPickConnection
| CallReceivePacket (fuel : nat)
| CallSendQuery (query query_id : string) (stage : Z) (with_pending_data : bool)
| CallDisconnect
| CallSendCancel
| CallDrainResidualPackets
| CallDumpAddresses
| CallSendExternalTablesData (data : list ExternalTablesData).

(** The packet a call returned to the caller, if any, with the coordinator
    and the world after the call. *)
Definition run_call (c : Call) (s : ReplicasConnections) (w : World)
  : option Packet * ReplicasConnections * World :=
  match c with
  | CallWaitForReadEvent => let '(_, s', w') := waitForReadEvent s w in (None, s', w')
  | CallPickConnection => let '(_, s', w') := pickConnection s w in (None, s', w')
  | CallReceivePacket fuel =>
      match receivePacket fuel s w with
      | (Done (Ok packet), s', w') => (Some packet, s', w')
      | (_, s', w') => (None, s', w')
      end
  | CallSendQuery q qid stage pending => (None, s, sendQuery q qid stage pending s w)
  | CallDisconnect => (None, s, disconnect s w)
  | CallSendCancel => (None, s, sendCancel s w)
  | CallDrainResidualPackets => (None, s, (drainResidualPackets s w).2)
  | CallDumpAddresses => (None, s, w)
  | CallSendExternalTablesData data => (None, s, (sendExternalTablesData data s w).2)
  end.

(** A session: the packets returned, oldest first, and the final state. *)
Fixpoint run_calls (cs : list Call) (s : ReplicasConnections) (w : World)
  : list Packet * ReplicasConnections * World :=
  match cs with
  | [] => ([], s, w)
  | c :: cs' =>
      let '(out, s1, w1) := run_call c s w in
      let '(outs, s2, w2) := run_calls cs' s1 w1 in
      (match out with Some p => p :: outs | None => outs end, s2, w2)
  end.

(** * Vocabulary of the properties *)

(** ** Worlds and packets *)

(** The connections only lose packets. *)
Definition shrinks (w w' : World) : Prop :=
  forall c, (length (incoming w' c) <= length (incoming w c))%nat.

(** The packet types that end neither a stream nor the validity of a
    replica. *)
Definition streamable (t : PacketType) : bool :=
  match t with
  | Data | Progress | ProfileInfo | Totals | Extremes => true
  | _ => false
  end.

(** ** Coordinators *)

(** The number of valid replicas of a table. *)
Definition valid_count (h : list (Z * Replica.t)) : nat :=
  length (List.filter (fun e => Replica.is_valid e.2) h).

(** What holds of the coordinator between calls: the keys of the table are
    distinct and are the descriptors of the connections, the count is the
    number of valid replicas, and no counter is negative. *)
Record Inv (s : ReplicasConnections) : Prop := mkInv {
  inv_keys : NoDup (map fst (replica_hash s));
  inv_sockfd : Forall (fun e => e.1 = sockfd (Replica.connection e.2)) (replica_hash s);
  inv_count : valid_replicas_count s = Z.of_nat (valid_count (replica_hash s));
  inv_packets : Forall (fun e => 0 <= Replica.next_packet_number e.2) (replica_hash s)
}.

(** No replica can read enough packets to overflow its [int] counter. *)
Definition Bounded (s : ReplicasConnections) (w : World) : Prop :=
  Forall
    (fun e =>
       Replica.next_packet_number e.2 +
       Z.of_nat (length (incoming w (sockfd (Replica.connection e.2)))) <= INT_MAX)
    (replica_hash s).

(** An entry at two points of a session. *)
Definition entry_evolves (e e' : Z * Replica.t) : Prop :=
  e'.1 = e.1 /\
  Replica.connection e'.2 = Replica.connection e.2 /\
  (Replica.is_valid e.2 = false -> Replica.is_valid e'.2 = false) /\
  Replica.next_packet_number e.2 <= Replica.next_packet_number e'.2.

(** The entries stay in place, a replica that is not valid stays so, and no
    counter of a replica goes down. *)
Definition evolves (s s' : ReplicasConnections) : Prop :=
  Forall2 entry_evolves (replica_hash s) (replica_hash s').

(** Entries that differ in [can_read] only. *)
Definition same_replica (e e' : Z * Replica.t) : Prop :=
  e'.1 = e.1 /\
  Replica.connection e'.2 = Replica.connection e.2 /\
  Replica.is_valid e'.2 = Replica.is_valid e.2 /\
  Replica.next_packet_number e'.2 = Replica.next_packet_number e.2.

(** ** Polling and selection *)

(** The table after the sockets [ks] have been found and marked. *)
Definition marked (ks : list Z) (h : list (Z * Replica.t)) : list (Z * Replica.t) :=
  map (fun e => on_replica (Replica.set_can_read (Replica.can_read e.2 || bool_decide (e.1 ∈ ks))) e) h.

(** The table after a poll: a replica is readable when it is valid and
    [select] found its socket readable. *)
Definition polled (w : World) (h : list (Z * Replica.t)) : list (Z * Replica.t) :=
  map (fun e =>
         on_replica
           (Replica.set_can_read
              (Replica.is_valid e.2 && readable w (polls w) (sockfd (Replica.connection e.2))))
           e) h.

(** The sockets [waitForReadEvent] polls. *)
Definition read_list (h : list (Z * Replica.t)) : list Z :=
  map (fun e => sockfd (Replica.connection e.2))
      (List.filter (fun e => Replica.is_valid e.2) h).

(** A readable replica has a counter of at most [m]. *)
Definition readable_upto (m : Z) (e : Z * Replica.t) : Prop :=
  Replica.can_read e.2 = true -> Replica.next_packet_number e.2 <= m.

(** The coordinator and the world after the poll of [pickConnection]. *)
Definition after_poll (s : ReplicasConnections) (w : World) : ReplicasConnections * World :=
  if valid_replicas_count s =? 0 then (s, w)
  else (with_replica_hash (polled w (replica_hash s)) s,
        (select (read_list (replica_hash s)) w).2).

(** What it means for [pickConnection] to have chosen position [i]. *)
Definition chosen (h : list (Z * Replica.t)) (i : nat) : Prop :=
  exists e,
    h !! i = Some e /\
    Replica.can_read e.2 = true /\ Replica.is_valid e.2 = true /\
    (forall j e', h !! j = Some e' ->
       Replica.can_read e'.2 = true -> Replica.is_valid e'.2 = true ->
       Replica.next_packet_number e'.2 <= Replica.next_packet_number e.2) /\
    (forall j e', (j < i)%nat -> h !! j = Some e' ->
       Replica.can_read e'.2 = true -> Replica.is_valid e'.2 = true ->
       Replica.next_packet_number e'.2 < Replica.next_packet_number e.2).

(** No replica is both readable and valid. *)
Definition none_ready (h : list (Z * Replica.t)) : Prop :=
  forall j e, h !! j = Some e ->
    ~ (Replica.can_read e.2 = true /\ Replica.is_valid e.2 = true).

(** ** Strings, streams and sockets *)

(** Splits the conjunctions of a goal and nothing else. *)
Ltac conjs := repeat match goal with |- _ /\ _ => split end.

(** Strings put one after the other. *)
Definition joined (l : list string) : string := fold_right String.append EmptyString l.

(** The addresses of the valid replicas, in iteration order. *)
Definition valid_addresses (s : ReplicasConnections) : list string :=
  map (fun e => getServerAddress (Replica.connection e.2))
      (List.filter (fun e => Replica.is_valid e.2) (replica_hash s)).

(** The character [c] is one of the characters of [s]. *)
Fixpoint occurs (c : ascii) (s : string) : Prop :=
  match s with
  | EmptyString => False
  | String c' s' => c = c' \/ occurs c s'
  end.

(** A stream once it has been read up to and including its first packet
    that is not streamable. *)
Fixpoint after_close (pending : list Packet) : list Packet :=
  match pending with
  | [] => []
  | p :: rest => if streamable (type p) then after_close rest else rest
  end.

(** The socket of the connection of an entry. *)
Definition sock (e : Z * Replica.t) : Z := sockfd (Replica.connection e.2).

(** An event of the drain: a packet read from a valid replica of [h]. *)
Definition drained_from (h : list (Z * Replica.t)) (ev : Event) : Prop :=
  exists x q, In x h /\ Replica.is_valid x.2 = true /\ ev = EvReceivePacket (sock x) q.

(** No connection of the table has more than [m] packets to deliver. *)
Definition streams_within (m : nat) (s : ReplicasConnections) (w : World) : Prop :=
  Forall (fun e => (length (incoming w (sock e)) <= m)%nat) (replica_hash s).

Definition closes (pending : list Packet) : Prop :=
  Exists (fun p => streamable (type p) = false) pending.

(** The packets the drain reads off a stream: up to and including the first
    packet that is not streamable. *)
Fixpoint read_to_close (pending : list Packet) : list Packet :=
  match pending with
  | [] => []
  | p :: rest => if streamable (type p) then p :: read_to_close rest else [p]
  end.

(** The reads of the drain on the valid replicas of [h], in order. *)
Definition drain_reads (w : World) (h : list (Z * Replica.t)) : list Event :=
  flat_map (fun x => map (EvReceivePacket (sock x)) (read_to_close (incoming w (sock x))))
           (List.filter (fun x => Replica.is_valid x.2) h).

(** ** Example coordinators and worlds *)

(** Three connections. *)
Definition replica_a : Connection := mkConnection 10 "a:9000".

Definition replica_b : Connection := mkConnection 11 "b:9000".

Definition replica_c : Connection := mkConnection 12 "c:9000".

(** The first replica delivers a block and ends, the second two blocks, the
    third ends at once; every socket is readable at every poll. *)
Definition three_streams : World :=
  {| incoming := fun fd =>
       if fd =? 10 then [mkPacket Data 1; mkPacket EndOfStream 2]
       else if fd =? 11 then [mkPacket Data 3; mkPacket Data 4; mkPacket EndOfStream 5]
       else if fd =? 12 then [mkPacket EndOfStream 6]
       else [];
     readable := fun _ _ => true;
     polls := 0;
     trace := [] |}.

(** The coordinator built on the three connections. *)
Definition three_replicas : ReplicasConnections :=
  construct [replica_a; replica_b; replica_c].

(** A coordinator whose only replica has been taken out. *)
Definition no_replicas : ReplicasConnections :=
  {| replica_hash := [(10, Replica.set_is_valid false (Replica.new replica_a))];
     valid_replicas_count := 0;
     next_packet_number := 1 |}.

(** Two readable replicas, the first at packet 3 and the second at packet 5. *)
Definition two_replicas : ReplicasConnections :=
  {| replica_hash :=
       [(10, {| Replica.connection := replica_a; Replica.next_packet_number := 3;
                Replica.can_read := false; Replica.is_valid := true |});
        (11, {| Replica.connection := replica_b; Replica.next_packet_number := 5;
                Replica.can_read := false; Replica.is_valid := true |})];
     valid_replicas_count := 2;
     next_packet_number := 3 |}.

(** The first entry of [two_replicas]. *)
Definition first_of_two : Z * Replica.t :=
  (10, {| Replica.connection := replica_a; Replica.next_packet_number := 3;
          Replica.can_read := false; Replica.is_valid := true |}).

(** The first replica ends its stream; the second has a block, the end of
    its stream and one more block to deliver. *)
Definition closing_streams : World :=
  {| incoming := fun fd =>
       if fd =? 10 then [mkPacket EndOfStream 2]
       else if fd =? 11 then [mkPacket Data 3; mkPacket EndOfStream 5; mkPacket Data 9]
       else [];
     readable := fun _ _ => true;
     polls := 0;
     trace := [] |}.

(** The first replica sends a packet of unknown type. *)
Definition garbled_streams : World :=
  {| incoming := fun fd =>
       if fd =? 10 then [mkPacket (Unrecognized 99) 2; mkPacket Data 7]
       else if fd =? 11 then [mkPacket Data 3; mkPacket EndOfStream 5]
       else [];
     readable := fun _ _ => true;
     polls := 0;
     trace := [] |}.

(** A second connection on the socket of [replica_a]. *)
Definition replica_a_again : Connection := mkConnection 10 "a:9001".

(** The coordinator built on two connections that share a socket, once its
    only replica has been taken out: the count is still 1. *)
Definition miscounted : ReplicasConnections :=
  invalidate 0 (construct [replica_a; replica_a_again]).

(** The streams of [three_streams], with no socket ever readable. *)
Definition quiet_streams : World :=
  {| incoming := incoming three_streams;
     readable := fun _ _ => false;
     polls := 0;
     trace := [] |}.

(** The second entry of [two_replicas]. *)
Definition second_of_two : Z * Replica.t :=
  (11, {| Replica.connection := replica_b; Replica.next_packet_number := 5;
          Replica.can_read := false; Replica.is_valid := true |}).

(** Two replicas with the cursor at 3: the first has read one packet only. *)
Definition lagging_replicas : ReplicasConnections :=
  {| replica_hash :=
       [(10, {| Replica.connection := replica_a; Replica.next_packet_number := 1;
                Replica.can_read := false; Replica.is_valid := true |});
        (11, {| Replica.connection := replica_b; Replica.next_packet_number := 5;
                Replica.can_read := false; Replica.is_valid := true |})];
     valid_replicas_count := 2;
     next_packet_number := 3 |}.

(** The first entry of [lagging_replicas]. *)
Definition first_of_lagging : Z * Replica.t :=
  (10, {| Replica.connection := replica_a; Replica.next_packet_number := 1;
          Replica.can_read := false; Replica.is_valid := true |}).

(** The first replica still has three blocks to deliver before it ends. *)
Definition long_streams : World :=
  {| incoming := fun fd =>
       if fd =? 10
       then [mkPacket Data 1; mkPacket Data 2; mkPacket Data 3; mkPacket EndOfStream 4]
       else [];
     readable := fun _ _ => true;
     polls := 0;
     trace := [] |}.

(** * Lemmas *)

(** ** The world *)

Lemma shrinks_refl w : shrinks w w.
Proof. intros c. lia. Qed.

Lemma shrinks_trans w1 w2 w3 : shrinks w1 w2 -> shrinks w2 w3 -> shrinks w1 w3.
Proof. intros H12 H23 c. specialize (H12 c). specialize (H23 c). lia. Qed.

Lemma shrinks_same w w' : incoming w' = incoming w -> shrinks w w'.
Proof. intros E c. rewrite E. lia. Qed.

(** A loop that only emits an event for the entries that pass a test. *)
Lemma broadcast_fold (p : Z * Replica.t -> bool) (ev : Z * Replica.t -> Event) h w :
  fold_left (fun w e => if p e then emit (ev e) w else w) h w =
  {| incoming := incoming w; readable := readable w; polls := polls w;
     trace := trace w ++ map ev (List.filter p h) |}.
Proof.
  revert w. induction h as [|e h IH]; intros w; simpl.
  - destruct w; simpl. now rewrite app_nil_r.
  - rewrite IH. destruct (p e); simpl; [|reflexivity].
    now rewrite <- app_assoc.
Qed.

Lemma disconnect_spec s w :
  disconnect s w =
  {| incoming := incoming w; readable := readable w; polls := polls w;
     trace := trace w ++
       map (fun e => EvDisconnect (sockfd (Replica.connection e.2)))
           (List.filter (fun e => Replica.is_valid e.2) (replica_hash s)) |}.
Proof. apply broadcast_fold. Qed.

Lemma sendCancel_spec s w :
  sendCancel s w =
  {| incoming := incoming w; readable := readable w; polls := polls w;
     trace := trace w ++
       map (fun e => EvSendCancel (sockfd (Replica.connection e.2)))
           (List.filter (fun e => Replica.is_valid e.2) (replica_hash s)) |}.
Proof. apply broadcast_fold. Qed.

Lemma sendQuery_spec q qid stage pending s w :
  sendQuery q qid stage pending s w =
  {| incoming := incoming w; readable := readable w; polls := polls w;
     trace := trace w ++
       map (fun e => EvSendQuery (sockfd (Replica.connection e.2)) q qid stage pending)
           (replica_hash s) |}.
Proof.
  unfold sendQuery. generalize (replica_hash s) as h. intros h. revert w.
  induction h as [|e h IH]; intros w; simpl.
  - destruct w; simpl. now rewrite app_nil_r.
  - rewrite IH. simpl. now rewrite <- app_assoc.
Qed.

Lemma send_tables_spec h data w :
  send_tables h data w =
  {| incoming := incoming w; readable := readable w; polls := polls w;
     trace := trace w ++
       zip_with (fun e d => EvSendExternalTablesData (sockfd (Replica.connection e.2)) d)
                h data |}.
Proof.
  revert data w. induction h as [|e h IH]; intros [|d data] w; simpl;
    try (destruct w; simpl; now rewrite app_nil_r).
  rewrite IH. simpl. now rewrite <- app_assoc.
Qed.

(** ** The drain *)

(** The drain of one connection reads a prefix of its stream: packets that
    are skipped and, unless the stream ends first, the packet that closes
    it. *)
Lemma drain_stream_spec c pending tr caught :
  exists read,
    pending = read ++ (drain_stream c pending tr caught).1.2 /\
    (drain_stream c pending tr caught).2 = tr ++ map (EvReceivePacket c) read /\
    match (drain_stream c pending tr caught).1.1 with
    | Ok _ =>
        exists skipped closing,
          read = skipped ++ [closing] /\
          Forall (fun p => streamable (type p) = true) skipped /\
          streamable (type closing) = false
    | Throw err =>
        err = NETWORK_ERROR /\ (drain_stream c pending tr caught).1.2 = [] /\
        Forall (fun p => streamable (type p) = true) read
    end.
Proof.
  revert tr. induction pending as [|p rest IH]; intros tr; simpl.
  - exists []. simpl. rewrite app_nil_r. auto.
  - destruct (type p) eqn:Et;
      try (destruct (IH (tr ++ [EvReceivePacket c p])) as (read & E1 & E2 & E3);
           exists (p :: read); simpl; rewrite E2, <- app_assoc; simpl;
           split; [congruence|]; split; [reflexivity|];
           destruct (drain_stream c rest (tr ++ [EvReceivePacket c p]) caught).1.1;
           [ destruct E3 as (sk & cl & -> & Hsk & Hcl); exists (p :: sk), cl;
             repeat split; auto; constructor; auto; now rewrite Et
           | destruct E3 as (-> & E3 & Hsk); repeat split; auto;
             constructor; auto; now rewrite Et ]);
      (exists [p]; simpl; repeat split; auto; exists [], p; simpl;
       repeat split; auto; now rewrite Et).
Qed.

Lemma drain_connection_shrinks c caught w :
  shrinks w (drain_connection c caught w).2.
Proof.
  unfold drain_connection.
  destruct (drain_stream_spec (sockfd c) (incoming w (sockfd c)) (trace w) caught)
    as (read & E & _).
  destruct (drain_stream _ _ _ _) as [[res rest] tr]. simpl in *.
  intros c'. simpl. destruct (Z.eqb_spec c' (sockfd c)) as [->|]; [|lia].
  rewrite E, length_app. lia.
Qed.

Lemma drain_replicas_shrinks h caught w :
  shrinks w (drain_replicas h caught w).2.
Proof.
  revert caught w. induction h as [|e h IH]; intros caught w; simpl.
  - apply shrinks_refl.
  - destruct (Replica.is_valid e.2); [|apply IH].
    pose proof (drain_connection_shrinks (Replica.connection e.2) caught w) as Hs.
    destruct (drain_connection _ _ _) as [[caught'|err] w']; simpl in *; [|exact Hs].
    eapply shrinks_trans; [exact Hs|apply IH].
Qed.

Lemma drainResidualPackets_shrinks s w :
  shrinks w (drainResidualPackets s w).2.
Proof.
  unfold drainResidualPackets.
  pose proof (drain_replicas_shrinks (replica_hash s) false w) as Hs.
  destruct (drain_replicas _ _ _) as [[caught|err] w']; exact Hs.
Qed.

(** ** Well-formed coordinators *)

Lemma entry_evolves_refl e : entry_evolves e e.
Proof. unfold entry_evolves. repeat split; auto. lia. Qed.

Lemma evolves_refl s : evolves s s.
Proof. apply Forall_Forall2_diag, Forall_forall. intros; apply entry_evolves_refl. Qed.

Lemma evolves_trans s1 s2 s3 : evolves s1 s2 -> evolves s2 s3 -> evolves s1 s3.
Proof.
  unfold evolves. intros H12 H23.
  eapply Forall2_trans; [| exact H12 | exact H23].
  intros e1 e2 e3 (K1 & C1 & V1 & N1) (K2 & C2 & V2 & N2).
  unfold entry_evolves. repeat split; try congruence; auto. lia.
Qed.

Lemma Bounded_shrinks s w w' : shrinks w w' -> Bounded s w -> Bounded s w'.
Proof.
  intros Hs Hb. unfold Bounded. eapply Forall_impl; [exact Hb|]. simpl. intros e He.
  specialize (Hs (sockfd (Replica.connection e.2))). lia.
Qed.

Lemma int_incr_small x : - 2 ^ 31 <= x < INT_MAX -> int_incr x = x + 1.
Proof.
  unfold int_incr, INT_MAX. intros H.
  rewrite Z.mod_small; lia.
Qed.

Lemma same_replica_keys h h' : Forall2 same_replica h h' -> map fst h' = map fst h.
Proof. induction 1 as [|e e' h h' (K & _) _ IH]; simpl; congruence. Qed.

Lemma same_replica_valid_count h h' : Forall2 same_replica h h' -> valid_count h' = valid_count h.
Proof.
  unfold valid_count. induction 1 as [|e e' h h' (_ & _ & V & _) _ IH]; simpl; auto.
  rewrite V. destruct (Replica.is_valid e.2); simpl; congruence.
Qed.

Lemma same_replica_evolves h h' :
  Forall2 same_replica h h' -> Forall2 entry_evolves h h'.
Proof.
  intros H. eapply Forall2_impl; [exact H|]. intros e e' (K & C & V & N).
  unfold entry_evolves. repeat split; auto; [congruence | lia].
Qed.

Lemma same_replica_Inv s h' :
  Forall2 same_replica (replica_hash s) h' -> Inv s -> Inv (with_replica_hash h' s).
Proof.
  intros H [Hk Hs Hc Hp]. split; simpl.
  - now rewrite (same_replica_keys _ _ H).
  - clear -H Hs. induction H as [|e e' h h' (K & C & _) _ IH]; auto.
    inversion Hs; subst. constructor; auto. congruence.
  - now rewrite (same_replica_valid_count _ _ H).
  - clear -H Hp. induction H as [|e e' h h' (_ & _ & _ & N) _ IH]; auto.
    inversion Hp; subst. constructor; auto. lia.
Qed.

Lemma same_replica_Bounded s h' w :
  Forall2 same_replica (replica_hash s) h' -> Bounded s w -> Bounded (with_replica_hash h' s) w.
Proof.
  unfold Bounded. simpl. intros H Hb.
  induction H as [|e e' h h' (_ & C & _ & N) _ IH]; auto.
  inversion Hb; subst. constructor; auto. rewrite C, N. assumption.
Qed.

(** ** Readiness *)

Lemma marked_keys ks h : map fst (marked ks h) = map fst h.
Proof. unfold marked. rewrite map_map. reflexivity. Qed.

Lemma marked_absent fd h : ~ In fd (map fst h) -> marked [fd] h = h.
Proof.
  unfold marked. induction h as [|[k r] h IH]; simpl; intros Hn; [reflexivity|].
  rewrite IH by tauto. f_equal.
  rewrite bool_decide_eq_false_2.
  - destruct r; unfold on_replica, Replica.set_can_read; simpl. now rewrite orb_false_r.
  - rewrite list_elem_of_singleton. intros ->. tauto.
Qed.

Lemma find_mark_spec fd h :
  NoDup (map fst h) -> In fd (map fst h) -> find_mark fd h = Some (marked [fd] h).
Proof.
  induction h as [|[k r] h IH]; simpl; intros Hnd Hin; [tauto|].
  apply NoDup_cons in Hnd as [Hk Hnd].
  destruct (Z.eqb_spec k fd) as [->|Hne].
  - change (marked [fd] ((fd, r) :: h)) with
      (on_replica (Replica.set_can_read (Replica.can_read r || bool_decide (fd ∈ [fd]))) (fd, r)
       :: marked [fd] h).
    rewrite marked_absent by (rewrite <- list_elem_of_In; exact Hk).
    rewrite bool_decide_eq_true_2 by apply list_elem_of_singleton, eq_refl.
    now rewrite orb_true_r.
  - destruct Hin as [?|Hin]; [congruence|].
    rewrite IH by assumption. simpl. f_equal.
    change (marked [fd] ((k, r) :: h)) with
      (on_replica (Replica.set_can_read (Replica.can_read r || bool_decide (k ∈ [fd]))) (k, r)
       :: marked [fd] h).
    f_equal. rewrite bool_decide_eq_false_2 by (rewrite list_elem_of_singleton; exact Hne).
    destruct r; unfold on_replica, Replica.set_can_read; simpl. now rewrite orb_false_r.
Qed.

Lemma marked_nil h : marked [] h = h.
Proof.
  unfold marked. transitivity (map id h); [|apply map_id].
  apply map_ext. intros [k r].
  rewrite bool_decide_eq_false_2 by apply not_elem_of_nil.
  destruct r; unfold on_replica, Replica.set_can_read; simpl.
  now rewrite orb_false_r.
Qed.

Lemma marked_cons k ks h : marked ks (marked [k] h) = marked (k :: ks) h.
Proof.
  unfold marked. rewrite map_map. apply map_ext. intros [k' r].
  unfold on_replica, Replica.set_can_read; simpl. do 2 f_equal.
  rewrite <- orb_assoc. f_equal.
  apply eq_true_iff_eq. rewrite orb_true_iff, !bool_decide_eq_true.
  rewrite list_elem_of_singleton, elem_of_cons. tauto.
Qed.

Lemma mark_readable_spec ks h :
  NoDup (map fst h) -> (forall k, In k ks -> In k (map fst h)) ->
  mark_readable ks h = (marked ks h, true).
Proof.
  revert h. induction ks as [|k ks IH]; intros h Hnd Hin; simpl.
  - now rewrite marked_nil.
  - rewrite find_mark_spec by (auto; apply Hin; now left).
    rewrite IH.
    + now rewrite marked_cons.
    + now rewrite marked_keys.
    + intros k' Hk'. rewrite marked_keys. apply Hin. now right.
Qed.

Lemma key_determines_entry (h : list (Z * Replica.t)) e e' :
  NoDup (map fst h) -> In e h -> In e' h -> e.1 = e'.1 -> e = e'.
Proof.
  induction h as [|x h IH]; simpl; intros Hnd He He' Hk; [tauto|].
  apply NoDup_cons in Hnd as [Hx Hnd]. rewrite list_elem_of_In in Hx.
  destruct He as [->|He], He' as [->|He']; auto.
  - exfalso. apply Hx. rewrite Hk. now apply in_map.
  - exfalso. apply Hx. rewrite <- Hk. now apply in_map.
Qed.

Lemma waitForReadEvent_spec s w :
  Inv s -> valid_replicas_count s <> 0 ->
  waitForReadEvent s w =
  (Ok (Z.of_nat (length (select (read_list (replica_hash s)) w).1)),
   with_replica_hash (polled w (replica_hash s)) s,
   (select (read_list (replica_hash s)) w).2).
Proof.
  intros [Hk Hs Hc Hp] Hn. unfold waitForReadEvent.
  destruct (Z.eqb_spec (valid_replicas_count s) 0) as [|_]; [contradiction|].
  fold (read_list (replica_hash s)). simpl.
  rewrite mark_readable_spec.
  - do 2 f_equal. unfold marked, polled. rewrite map_map.
    f_equal. apply map_ext_in. intros [k r] Hin. unfold on_replica; simpl.
    unfold Replica.set_can_read; simpl. do 2 f_equal.
    apply eq_true_iff_eq. rewrite bool_decide_eq_true, andb_true_iff.
    rewrite list_elem_of_In, filter_In. unfold read_list. rewrite in_map_iff.
    rewrite Forall_forall in Hs.
    split.
    + intros [([k0 r0] & Hfd & Hin0) Hr]. apply filter_In in Hin0 as [Hin0 Hv0].
      simpl in *.
      assert ((k0, r0) = (k, r)) as E.
      { apply (key_determines_entry (replica_hash s)); auto. simpl.
        pose proof (Hs (k0, r0) (proj2 (list_elem_of_In _ _) Hin0)) as H0.
        simpl in H0. congruence. }
      injection E as -> ->. split; auto.
      pose proof (Hs (k, r) (proj2 (list_elem_of_In _ _) Hin)) as H0.
      simpl in H0. congruence.
    + intros [Hv Hr].
      pose proof (Hs (k, r) (proj2 (list_elem_of_In _ _) Hin)) as Hkr. simpl in Hkr.
      split; [|now rewrite Hkr].
      exists (k, r). split; [now rewrite Hkr|]. apply filter_In. auto.
  - rewrite map_map. simpl. exact Hk.
  - intros k Hin. apply filter_In in Hin as [Hin _].
    unfold read_list in Hin. apply in_map_iff in Hin as ([k0 r0] & <- & Hin).
    apply filter_In in Hin as [Hin _].
    rewrite map_map. simpl. apply in_map_iff. exists (k0, r0). split; auto.
    rewrite Forall_forall in Hs. apply (Hs (k0, r0)).
    now apply list_elem_of_In.
Qed.

Lemma polled_same_replica w h : Forall2 same_replica h (polled w h).
Proof.
  unfold polled. induction h as [|e h IH]; simpl; constructor; auto.
  unfold same_replica. simpl. auto.
Qed.

(** ** Selection *)

(** The selection loop keeps the first readable replica whose counter is
    the largest and exceeds the starting maximum. *)
Lemma pick_loop_spec h : forall i m res,
  match pick_loop h i m res with
  | None => res = None /\ Forall (readable_upto m) h
  | Some j =>
      (res = Some j /\ Forall (readable_upto m) h) \/
      (exists e,
          (i <= j)%nat /\ h !! (j - i)%nat = Some e /\
          Replica.can_read e.2 = true /\ m < Replica.next_packet_number e.2 /\
          Forall (readable_upto (Replica.next_packet_number e.2)) h /\
          forall k e', (k < j - i)%nat -> h !! k = Some e' ->
            Replica.can_read e'.2 = true ->
            Replica.next_packet_number e'.2 < Replica.next_packet_number e.2)
  end.
Proof.
  induction h as [|e h IH]; intros i m res; simpl.
  - destruct res; auto.
  - assert (forall m', (Replica.can_read e.2 = true -> Replica.next_packet_number e.2 <= m') ->
              Forall (readable_upto m') h -> Forall (readable_upto m') (e :: h)) as Hcons
      by (intros; constructor; auto).
    set (go := Replica.can_read e.2 && (m <? Replica.next_packet_number e.2)).
    assert (go = true /\ Replica.can_read e.2 = true /\ m < Replica.next_packet_number e.2 \/
            go = false /\ (Replica.can_read e.2 = true -> Replica.next_packet_number e.2 <= m))
      as [(-> & Hr & Hlt)|(-> & Hle)].
    { unfold go. destruct (Replica.can_read e.2); simpl.
      - destruct (Z.ltb_spec m (Replica.next_packet_number e.2)); [left|right]; auto.
      - right. split; auto. discriminate. }
    + specialize (IH (S i) (Replica.next_packet_number e.2) (Some i)).
      destruct (pick_loop h (S i) _ _) as [j|]; [|destruct IH; discriminate].
      right. destruct IH as [[E Hall]|(e1 & Hij & Hl & Hr1 & Hm & Hall & Hties)].
      * injection E as <-. exists e. rewrite Nat.sub_diag. simpl.
        split; [lia|]. split; [reflexivity|]. split; [assumption|]. split; [assumption|].
        split; [apply Hcons; auto; lia|]. intros k e' Hk. lia.
      * exists e1. replace (j - i)%nat with (S (j - S i)) by lia. simpl.
        split; [lia|]. split; [assumption|]. split; [assumption|]. split; [lia|].
        split; [apply Hcons; auto; lia|].
        intros [|k] e' Hk; simpl.
        -- intros [= <-] _. lia.
        -- apply Hties. lia.
    + specialize (IH (S i) m res).
      destruct (pick_loop h (S i) m res) as [j|].
      * destruct IH as [[E Hall]|(e1 & Hij & Hl & Hr1 & Hm & Hall & Hties)].
        -- left. split; auto.
        -- right. exists e1. replace (j - i)%nat with (S (j - S i)) by lia. simpl.
           split; [lia|]. split; [assumption|]. split; [assumption|]. split; [lia|].
           split; [apply Hcons; auto; intros Hr; specialize (Hle Hr); lia|].
           intros [|k] e' Hk; simpl.
           ++ intros [= <-] Hr. specialize (Hle Hr). lia.
           ++ apply Hties. lia.
      * destruct IH as [E Hall]. split; auto.
Qed.

Lemma valid_count_zero h :
  valid_count h = O -> Forall (fun e => Replica.is_valid e.2 = false) h.
Proof.
  unfold valid_count. induction h as [|e h IH]; simpl; intros H; constructor;
    destruct (Replica.is_valid e.2); simpl in *; auto; discriminate.
Qed.

Lemma polled_lookup w h j e' :
  polled w h !! j = Some e' ->
  exists e, h !! j = Some e /\ e'.1 = e.1 /\
    Replica.connection e'.2 = Replica.connection e.2 /\
    Replica.next_packet_number e'.2 = Replica.next_packet_number e.2 /\
    Replica.is_valid e'.2 = Replica.is_valid e.2 /\
    Replica.can_read e'.2 =
      Replica.is_valid e.2 && readable w (polls w) (sockfd (Replica.connection e.2)).
Proof.
  unfold polled. change (@map) with (@fmap list list_fmap).
  rewrite list_lookup_fmap. destruct (h !! j) as [e|]; simpl; [|discriminate].
  intros [= <-]. exists e. simpl. auto 10.
Qed.

Lemma pickConnection_spec s w :
  Inv s ->
  exists res,
    pickConnection s w = (res, (after_poll s w).1, (after_poll s w).2) /\
    match res with
    | Ok i => chosen (replica_hash (after_poll s w).1) i
    | Throw err => err = NO_AVAILABLE_REPLICA /\ none_ready (replica_hash (after_poll s w).1)
    end.
Proof.
  intros HI. unfold pickConnection, after_poll.
  destruct (Z.eqb_spec (valid_replicas_count s) 0) as [H0|Hn].
  - unfold waitForReadEvent. rewrite (proj2 (Z.eqb_eq _ _) H0). simpl.
    exists (Throw NO_AVAILABLE_REPLICA). repeat split.
    intros j e Hj [_ Hv].
    destruct HI as [_ _ Hc _]. rewrite H0 in Hc.
    assert (valid_count (replica_hash s) = O) as Hz by lia.
    apply valid_count_zero in Hz. rewrite Forall_forall in Hz.
    rewrite (Hz e) in Hv; [discriminate|]. apply list_elem_of_lookup. eauto.
  - rewrite waitForReadEvent_spec by assumption. simpl.
    set (ready := List.filter (readable w (polls w)) (read_list (replica_hash s))).
    destruct (Z.ltb_spec 0 (Z.of_nat (length ready))) as [Hpos|Hzero].
    + pose proof (pick_loop_spec (polled w (replica_hash s)) 0%nat (-1) None) as Hp.
      destruct (pick_loop _ _ _ _) as [i|].
      * exists (Ok i). split; [reflexivity|]. simpl.
        destruct Hp as [[? _]|(e & _ & Hl & Hr & _ & Hall & Hties)]; [discriminate|].
        rewrite Nat.sub_0_r in Hl, Hties.
        destruct (polled_lookup _ _ _ _ Hl) as (e0 & _ & _ & _ & _ & Hv & Hc).
        exists e. repeat split; auto.
        -- rewrite Hv. rewrite Hr in Hc. symmetry in Hc.
           apply andb_true_iff in Hc. tauto.
        -- intros j e' Hj Hr' _. rewrite Forall_forall in Hall.
           apply (Hall e'); auto. apply list_elem_of_lookup. eauto.
        -- intros j e' Hlt Hj Hr' _. eapply Hties; eauto.
      * exists (Throw NO_AVAILABLE_REPLICA). split; [reflexivity|]. simpl.
        split; [reflexivity|]. intros j e' Hj [Hr _].
        destruct Hp as [_ Hall]. rewrite Forall_forall in Hall.
        assert (e' ∈ polled w (replica_hash s)) as Hin by (apply list_elem_of_lookup; eauto).
        specialize (Hall e' Hin Hr).
        destruct (polled_lookup _ _ _ _ Hj) as (e0 & Hj0 & _ & _ & Hn0 & _).
        destruct HI as [_ _ _ Hnn]. rewrite Forall_forall in Hnn.
        assert (e0 ∈ replica_hash s) as Hin0 by (apply list_elem_of_lookup; eauto).
        specialize (Hnn e0 Hin0). simpl in Hnn. lia.
    + exists (Throw NO_AVAILABLE_REPLICA). split; [reflexivity|]. simpl.
      split; [reflexivity|]. intros j e' Hj [Hr _].
      destruct (polled_lookup _ _ _ _ Hj) as (e0 & Hj0 & _ & _ & _ & _ & Hc).
      rewrite Hr in Hc. symmetry in Hc. apply andb_true_iff in Hc as [Hv Hrd].
      assert (In (sockfd (Replica.connection e0.2)) ready) as Hin.
      { unfold ready. apply filter_In. split; auto. unfold read_list.
        apply in_map_iff. exists e0. split; auto. apply filter_In. split; auto.
        apply list_elem_of_In, list_elem_of_lookup. eauto. }
      destruct ready; [destruct Hin|simpl in Hzero; lia].
Qed.

(** ** Writing through a reference *)

Lemma alter_keys f i (h : list (Z * Replica.t)) :
  map fst (alter (on_replica f) i h) = map fst h.
Proof.
  revert i. induction h as [|e h IH]; intros [|i]; simpl; auto.
  f_equal. apply IH.
Qed.

Lemma valid_count_invalidate i e (h : list (Z * Replica.t)) :
  h !! i = Some e -> Replica.is_valid e.2 = true ->
  valid_count h = S (valid_count (alter (on_replica (Replica.set_is_valid false)) i h)).
Proof.
  unfold valid_count. revert i. induction h as [|x h IH]; intros [|i]; simpl; try discriminate.
  - intros [= ->] ->. reflexivity.
  - intros Hl Hv. specialize (IH _ Hl Hv).
    change (list_alter (on_replica (Replica.set_is_valid false)) i h)
      with (alter (on_replica (Replica.set_is_valid false)) i h).
    destruct (Replica.is_valid x.2); simpl; rewrite IH; reflexivity.
Qed.

Lemma valid_count_same_validity f i (h : list (Z * Replica.t)) :
  (forall r, Replica.is_valid (f r) = Replica.is_valid r) ->
  valid_count (alter (on_replica f) i h) = valid_count h.
Proof.
  intros Hf. unfold valid_count. revert i.
  induction h as [|x h IH]; intros [|i]; simpl; auto.
  - rewrite Hf. destruct (Replica.is_valid x.2); reflexivity.
  - change (list_alter (on_replica f) i h) with (alter (on_replica f) i h).
    destruct (Replica.is_valid x.2); simpl; rewrite IH; reflexivity.
Qed.

Lemma invalidate_Inv i e s :
  Inv s -> replica_hash s !! i = Some e -> Replica.is_valid e.2 = true ->
  Inv (invalidate i s).
Proof.
  intros [Hk Hs Hc Hp] Hl Hv. split; simpl.
  - now rewrite alter_keys.
  - apply Forall_alter; auto.
  - rewrite Hc, (valid_count_invalidate _ _ _ Hl Hv). lia.
  - apply Forall_alter; auto.
Qed.

Lemma invalidate_evolves i s : evolves s (invalidate i s).
Proof.
  unfold evolves. simpl. apply Forall2_alter_r; [apply evolves_refl|].
  intros x y _ _ (K & C & V & N). unfold entry_evolves. simpl. auto.
Qed.

Lemma invalidate_Bounded i s w : Bounded s w -> Bounded (invalidate i s) w.
Proof. unfold Bounded. simpl. intros H. apply Forall_alter; auto. Qed.

Lemma invalidate_lookup i e s :
  replica_hash s !! i = Some e ->
  replica_hash (invalidate i s) !! i = Some (on_replica (Replica.set_is_valid false) e).
Proof. intros Hl. simpl. rewrite list_lookup_alter_eq, Hl. reflexivity. Qed.

(** The replica at [i] has read one more packet of its connection. *)
Lemma advance_Inv i e s w :
  Inv s -> Bounded s w -> replica_hash s !! i = Some e ->
  incoming w (sockfd (Replica.connection e.2)) <> [] ->
  Inv (update_replica i Replica.incr_next_packet_number s).
Proof.
  intros [Hk Hs Hc Hp] Hb Hl Hne. split; simpl.
  - now rewrite alter_keys.
  - apply Forall_alter; auto.
  - rewrite valid_count_same_validity; auto.
  - apply Forall_alter; auto. intros x Hx Hx0. simpl.
    assert (x = e) as -> by congruence.
    unfold Bounded in Hb. rewrite Forall_lookup in Hb. specialize (Hb _ _ Hl). simpl in Hb.
    destruct (incoming w (sockfd (Replica.connection e.2))); [congruence|].
    simpl in Hb. rewrite int_incr_small; unfold INT_MAX in *; lia.
Qed.

Lemma advance_evolves i e s w :
  Inv s -> Bounded s w -> replica_hash s !! i = Some e ->
  incoming w (sockfd (Replica.connection e.2)) <> [] ->
  evolves s (update_replica i Replica.incr_next_packet_number s).
Proof.
  intros [Hk Hs Hc Hp] Hb Hl Hne.
  unfold evolves. simpl. apply Forall2_alter_r; [apply evolves_refl|].
  intros x y Hx Hy _. assert (x = e) as -> by congruence.
  assert (y = e) as -> by congruence. unfold entry_evolves. simpl.
  repeat split; auto.
  unfold Bounded in Hb. rewrite Forall_lookup in Hb. specialize (Hb _ _ Hl). simpl in Hb.
  rewrite Forall_lookup in Hp. specialize (Hp _ _ Hl). simpl in Hp.
  destruct (incoming w (sockfd (Replica.connection e.2))); [congruence|].
  simpl in Hb. rewrite int_incr_small; unfold INT_MAX in *; lia.
Qed.

Lemma advance_Bounded i e s w w' :
  Inv s -> Bounded s w -> replica_hash s !! i = Some e -> shrinks w w' ->
  (length (incoming w' (sockfd (Replica.connection e.2))) <
   length (incoming w (sockfd (Replica.connection e.2))))%nat ->
  Bounded (update_replica i Replica.incr_next_packet_number s) w'.
Proof.
  intros [Hk Hs Hc Hp] Hb Hl Hsh Hlt. unfold Bounded in *. simpl.
  rewrite Forall_lookup in Hb, Hp. apply Forall_lookup. intros j x Hj.
  rewrite list_lookup_alter in Hj. destruct (decide (i = j)) as [<-|Hne].
  - rewrite Hl in Hj. simpl in Hj. injection Hj as <-. simpl.
    specialize (Hb _ _ Hl). specialize (Hp _ _ Hl). simpl in Hb, Hp.
    rewrite int_incr_small; unfold INT_MAX in *. all: lia.
  - specialize (Hb _ _ Hj). simpl in Hb.
    specialize (Hsh (sockfd (Replica.connection x.2))). lia.
Qed.

(** ** One turn of the receive loop *)

Lemma conn_receivePacket_spec c w :
  match conn_receivePacket c w with
  | (Ok packet, w') =>
      incoming w (sockfd c) = packet :: incoming w' (sockfd c) /\
      (forall c', c' <> sockfd c -> incoming w' c' = incoming w c') /\
      trace w' = trace w ++ [EvReceivePacket (sockfd c) packet] /\
      polls w' = polls w /\ readable w' = readable w
  | (Throw err, w') => err = NETWORK_ERROR /\ w' = w /\ incoming w (sockfd c) = []
  end.
Proof.
  unfold conn_receivePacket. destruct (incoming w (sockfd c)) as [|p rest] eqn:E; simpl.
  - auto.
  - rewrite Z.eqb_refl. repeat split; auto.
    intros c' Hc'. destruct (Z.eqb_spec c' (sockfd c)); [contradiction|reflexivity].
Qed.

Lemma conn_receivePacket_shrinks c w : shrinks w (conn_receivePacket c w).2.
Proof.
  pose proof (conn_receivePacket_spec c w) as H.
  destruct (conn_receivePacket c w) as [[p|err] w']; simpl.
  - destruct H as (Hc & Ho & _). intros c'.
    destruct (decide (c' = sockfd c)) as [->|Hne].
    + rewrite Hc. simpl. lia.
    + rewrite Ho by assumption. lia.
  - destruct H as (_ & -> & _). apply shrinks_refl.
Qed.

Lemma cancel_drain_shrinks s w :
  shrinks w (drainResidualPackets s (sendCancel s w)).2.
Proof.
  eapply shrinks_trans; [|apply drainResidualPackets_shrinks].
  apply shrinks_same. rewrite sendCancel_spec. reflexivity.
Qed.

(** The [switch] leaves the coordinator as it is or takes the replica out,
    and only ever takes packets off the connections. *)
Lemma handle_packet_spec i packet s w :
  let '(res, s2, w2) := handle_packet i packet s w in
  shrinks w w2 /\
  (if streamable (type packet) then s2 = s /\ w2 = w /\ res = Ok false
   else s2 = invalidate i s) /\
  (forall tag retry, type packet = Unrecognized tag -> res = Ok retry ->
     w2 = w /\ retry = (0 <? valid_replicas_count s - 1)).
Proof.
  unfold handle_packet.
  destruct (type packet) eqn:Et; simpl.
  1-5: split; [apply shrinks_refl|]; split; [auto|]; intros ? ? [=].
  1-2: pose proof (cancel_drain_shrinks (invalidate i s) w) as Hd;
    destruct (drainResidualPackets _ _) as [[?|?] w2]; simpl in *;
      (split; [exact Hd|]; split; [reflexivity|]; intros ? ? [=]).
  split; [apply shrinks_refl|]. split; [reflexivity|].
  intros tag' retry _ [= <-]. auto.
Qed.

Lemma incr_next_packet_number_Inv s : Inv s -> Inv (incr_next_packet_number s).
Proof. intros [Hk Hs Hc Hp]. split; assumption. Qed.

(** Whatever a turn of the loop does, the coordinator stays well formed,
    nothing goes backwards, and the cursor moves exactly when a packet is
    returned. *)
Lemma receive_iteration_spec i e s w :
  Inv s -> Bounded s w -> replica_hash s !! i = Some e -> Replica.is_valid e.2 = true ->
  let '(res, s', w') := receive_iteration i e.2 s w in
  Inv s' /\ Bounded s' w' /\ evolves s s' /\ shrinks w w' /\
  match res with
  | Ok (Some p) =>
      next_packet_number s' = next_packet_number s + 1 /\
      Replica.next_packet_number e.2 = next_packet_number s /\
      (exists rest, incoming w (sockfd (Replica.connection e.2)) = p :: rest) /\
      (forall tag, type p = Unrecognized tag -> valid_replicas_count s' = 0) /\
      exists e', replica_hash s' !! i = Some e' /\
        Replica.next_packet_number e'.2 = next_packet_number s'
  | Ok None =>
      next_packet_number s' = next_packet_number s /\
      (length (incoming w' (sockfd (Replica.connection e.2))) <
       length (incoming w (sockfd (Replica.connection e.2))))%nat
  | Throw _ => next_packet_number s' = next_packet_number s
  end.
Proof.
  intros HI HB Hl Hv. unfold receive_iteration.
  pose proof (conn_receivePacket_spec (Replica.connection e.2) w) as Hrecv.
  pose proof (conn_receivePacket_shrinks (Replica.connection e.2) w) as Hsh1.
  destruct (conn_receivePacket (Replica.connection e.2) w) as [[packet|err] w1]; simpl in Hsh1.
  2:{ destruct Hrecv as (_ & -> & _).
      repeat split; auto using evolves_refl, shrinks_refl; apply HI. }
  destruct Hrecv as (Hhead & _).
  pose proof (handle_packet_spec i packet s w1) as Hh.
  destruct (handle_packet i packet s w1) as [[res s2] w2].
  destruct Hh as (Hsh2 & Hs2 & Hretry).
  assert (shrinks w w2) as Hsh by (eapply shrinks_trans; eauto).
  assert (length (incoming w2 (sockfd (Replica.connection e.2))) <
          length (incoming w (sockfd (Replica.connection e.2))))%nat as Hlt.
  { specialize (Hsh2 (sockfd (Replica.connection e.2))). rewrite Hhead. simpl. lia. }
  assert (incoming w (sockfd (Replica.connection e.2)) <> []) as Hne
    by (rewrite Hhead; discriminate).
  assert (Inv s2 /\ Bounded s2 w /\ evolves s s2 /\
          next_packet_number s2 = next_packet_number s /\
          exists e2, replica_hash s2 !! i = Some e2 /\
            Replica.connection e2.2 = Replica.connection e.2 /\
            Replica.next_packet_number e2.2 = Replica.next_packet_number e.2)
    as (HI2 & HB2 & He2 & Hg2 & e2 & Hl2 & Hc2 & Hn2).
  { destruct (streamable (type packet)).
    - destruct Hs2 as (-> & _). repeat split; auto using evolves_refl; try apply HI.
      exists e. auto.
    - subst s2. repeat split; try apply (invalidate_Inv i e s); auto.
      + now apply invalidate_Bounded.
      + apply invalidate_evolves.
      + eexists. split; [apply invalidate_lookup; eassumption|]. simpl. auto. }
  destruct res as [retry|err].
  2:{ repeat split; try apply HI2; auto. eapply Bounded_shrinks; eauto. }
  rewrite <- Hc2 in Hlt, Hne.
  assert (Inv (update_replica i Replica.incr_next_packet_number s2)) as HI3
    by (eapply advance_Inv; eauto).
  assert (Bounded (update_replica i Replica.incr_next_packet_number s2) w2) as HB3
    by (eapply advance_Bounded; eauto).
  assert (evolves s (update_replica i Replica.incr_next_packet_number s2)) as He3
    by (eapply evolves_trans; [exact He2|eapply advance_evolves; eauto]).
  destruct (Z.eqb_spec (Replica.next_packet_number e.2) (next_packet_number s2)) as [Heq|Hneq];
    simpl.
  2:{ rewrite <- Hc2. repeat split; try apply HI3; auto. }
  destruct retry; simpl.
  { rewrite <- Hc2. repeat split; try apply HI3; auto. }
  assert (0 <= Replica.next_packet_number e.2 < INT_MAX) as Hrange.
  { destruct HI as [_ _ _ Hp]. rewrite Forall_lookup in Hp. specialize (Hp _ _ Hl).
    unfold Bounded in HB. rewrite Forall_lookup in HB. specialize (HB _ _ Hl).
    simpl in Hp, HB. rewrite Hhead in HB. simpl in HB. lia. }
  split; [apply incr_next_packet_number_Inv; exact HI3|].
  split; [exact HB3|]. split; [exact He3|]. split; [exact Hsh|].
  simpl. rewrite <- Heq.
  rewrite !int_incr_small by (unfold INT_MAX in *; lia).
  split; [lia|]. split; [congruence|]. split; [eauto|].
  split.
  - intros tag Ht. destruct (Hretry tag false Ht eq_refl) as (_ & Hr).
    assert (streamable (type packet) = false) as Hst by (rewrite Ht; reflexivity).
    rewrite Hst in Hs2. subst s2. simpl.
    symmetry in Hr. apply Z.ltb_ge in Hr.
    pose proof (inv_count _ HI2) as Hc. simpl in Hc. lia.
  - rewrite list_lookup_alter_eq, Hl2. simpl. eexists. split; [reflexivity|].
    simpl. rewrite Hn2. rewrite int_incr_small by (unfold INT_MAX in *; lia). reflexivity.
Qed.

(** ** The receive loops *)

Lemma receive_loop_spec fuel i : forall s w,
  Inv s -> Bounded s w ->
  let '(res, s', w') := receive_loop fuel i s w in
  Inv s' /\ Bounded s' w' /\ evolves s s' /\ shrinks w w' /\
  match res with
  | Done (Ok (Some p)) =>
      next_packet_number s' = next_packet_number s + 1 /\
      (forall tag, type p = Unrecognized tag -> valid_replicas_count s' = 0) /\
      exists e', replica_hash s' !! i = Some e' /\
        Replica.next_packet_number e'.2 = next_packet_number s'
  | Done (Ok None) =>
      next_packet_number s' = next_packet_number s /\
      forall e', replica_hash s' !! i = Some e' -> Replica.is_valid e'.2 = false
  | Done (Throw _) | OutOfFuel => next_packet_number s' = next_packet_number s
  end.
Proof.
  induction fuel as [|fuel IH]; intros s w HI HB; simpl.
  - destruct (replica_hash s !! i) as [e|] eqn:Hl.
    + destruct (Replica.is_valid e.2) eqn:Hv;
        conjs; auto using evolves_refl, shrinks_refl.
      intros e' He'. assert (e' = e) as -> by congruence. exact Hv.
    + conjs; auto using evolves_refl, shrinks_refl. intros e' He'; congruence.
  - destruct (replica_hash s !! i) as [e|] eqn:Hl.
    2:{ conjs; auto using evolves_refl, shrinks_refl. intros e' He'; congruence. }
    destruct (Replica.is_valid e.2) eqn:Hv.
    2:{ conjs; auto using evolves_refl, shrinks_refl. intros e' He'. assert (e' = e) as -> by congruence. exact Hv. }
    pose proof (receive_iteration_spec i e s w HI HB Hl Hv) as Hit.
    destruct (receive_iteration i e.2 s w) as [[[[p|]|err] s1] w1].
    + destruct Hit as (HI1 & HB1 & He1 & Hs1 & Hg & _ & _ & Hu & Hr). auto 10.
    + destruct Hit as (HI1 & HB1 & He1 & Hs1 & Hg & _).
      specialize (IH s1 w1 HI1 HB1).
      destruct (receive_loop fuel i s1 w1) as [[res s2] w2].
      destruct IH as (HI2 & HB2 & He2 & Hs2 & Hres).
      split; [exact HI2|]. split; [exact HB2|].
      split; [eapply evolves_trans; eauto|]. split; [eapply shrinks_trans; eauto|].
      rewrite <- Hg. exact Hres.
    + destruct Hit as (HI1 & HB1 & He1 & Hs1 & Hg). auto 10.
Qed.

Lemma after_poll_same s w :
  Forall2 same_replica (replica_hash s) (replica_hash (after_poll s w).1) /\
  valid_replicas_count (after_poll s w).1 = valid_replicas_count s /\
  next_packet_number (after_poll s w).1 = next_packet_number s /\
  incoming (after_poll s w).2 = incoming w.
Proof.
  unfold after_poll. destruct (valid_replicas_count s =? 0); simpl.
  - conjs; auto. apply Forall_Forall2_diag, Forall_forall.
    intros e _. unfold same_replica. auto.
  - conjs; auto. apply polled_same_replica.
Qed.

Lemma after_poll_ok s w :
  Inv s -> Bounded s w ->
  Inv (after_poll s w).1 /\ Bounded (after_poll s w).1 (after_poll s w).2 /\
  evolves s (after_poll s w).1 /\ shrinks w (after_poll s w).2.
Proof.
  intros HI HB. destruct (after_poll_same s w) as (Hsame & Hc & Hg & Hin).
  assert ((after_poll s w).1 = with_replica_hash (replica_hash (after_poll s w).1) s) as E.
  { unfold after_poll. destruct (valid_replicas_count s =? 0); simpl; [|reflexivity].
    destruct s; reflexivity. }
  conjs.
  - rewrite E. now apply same_replica_Inv.
  - rewrite E. apply same_replica_Bounded; auto.
    eapply Bounded_shrinks; [|exact HB]. now apply shrinks_same.
  - now apply same_replica_evolves.
  - now apply shrinks_same.
Qed.

Lemma receivePacket_spec fuel : forall s w,
  Inv s -> Bounded s w ->
  let '(res, s', w') := receivePacket fuel s w in
  Inv s' /\ Bounded s' w' /\ evolves s s' /\ shrinks w w' /\
  match res with
  | Done (Ok p) =>
      next_packet_number s' = next_packet_number s + 1 /\
      (forall tag, type p = Unrecognized tag -> valid_replicas_count s' = 0) /\
      exists i e', replica_hash s' !! i = Some e' /\
        Replica.next_packet_number e'.2 = next_packet_number s'
  | Done (Throw _) | OutOfFuel => next_packet_number s' = next_packet_number s
  end.
Proof.
  induction fuel as [|fuel IH]; intros s w HI HB; simpl.
  - conjs; auto using evolves_refl, shrinks_refl.
  - destruct (pickConnection_spec s w HI) as (res & -> & Hres).
    destruct (after_poll_ok s w HI HB) as (HI1 & HB1 & He1 & Hs1).
    destruct (after_poll_same s w) as (_ & _ & Hg1 & _).
    destruct (after_poll s w) as [s1 w1]. simpl in *.
    destruct res as [i|err]; [|rewrite Hg1; auto 10].
    pose proof (receive_loop_spec fuel i s1 w1 HI1 HB1) as Hloop.
    destruct (receive_loop fuel i s1 w1) as [[[[[p|]|err]|] s2] w2];
      destruct Hloop as (HI2 & HB2 & He2 & Hs2 & Hr).
    + rewrite <- Hg1. destruct Hr as (Hg & Hu & e' & Hr).
      conjs; eauto using evolves_trans, shrinks_trans.
    + destruct Hr as (Hg & _). specialize (IH s2 w2 HI2 HB2).
      destruct (receivePacket fuel s2 w2) as [[r s3] w3].
      destruct IH as (HI3 & HB3 & He3 & Hs3 & Hr3).
      rewrite <- Hg1, <- Hg.
      conjs; eauto using evolves_trans, shrinks_trans.
    + rewrite <- Hg1. conjs; eauto using evolves_trans, shrinks_trans.
    + rewrite <- Hg1. conjs; eauto using evolves_trans, shrinks_trans.
Qed.

(** ** Construction *)

Lemma hash_insert_fresh fd r h :
  ~ In fd (map fst h) -> hash_insert fd r h = h ++ [(fd, r)].
Proof.
  induction h as [|e h IH]; simpl; intros Hn; [reflexivity|].
  destruct (Z.eqb_spec e.1 fd) as [E|_]; [tauto|].
  rewrite IH by tauto. reflexivity.
Qed.

Lemma construct_fold entries : forall h,
  NoDup (map fst h ++ map sockfd entries) ->
  fold_left (fun h c => hash_insert (sockfd c) (Replica.new c) h) entries h =
  h ++ map (fun c => (sockfd c, Replica.new c)) entries.
Proof.
  induction entries as [|c entries IH]; intros h Hnd; simpl.
  - now rewrite app_nil_r.
  - rewrite hash_insert_fresh.
    + rewrite IH.
      * now rewrite <- app_assoc.
      * rewrite map_app. simpl. rewrite <- app_assoc. exact Hnd.
    + apply NoDup_app in Hnd as (_ & Hd & _). intros Hin.
      apply (Hd (sockfd c)); [now apply list_elem_of_In|]. simpl. left.
Qed.

Lemma construct_hash entries :
  NoDup (map sockfd entries) ->
  replica_hash (construct entries) = map (fun c => (sockfd c, Replica.new c)) entries.
Proof. intros Hnd. simpl. now rewrite construct_fold. Qed.

Lemma construct_Inv entries : NoDup (map sockfd entries) -> Inv (construct entries).
Proof.
  intros Hnd. split; rewrite construct_hash by assumption.
  - rewrite map_map. exact Hnd.
  - apply Forall_forall. intros e He. apply list_elem_of_In, in_map_iff in He as (c & <- & _).
    reflexivity.
  - simpl. unfold valid_count. f_equal. clear Hnd.
    induction entries as [|c entries IH]; simpl; congruence.
  - apply Forall_forall. intros e He. apply list_elem_of_In, in_map_iff in He as (c & <- & _).
    simpl. lia.
Qed.

(** ** Sessions *)

Lemma waitForReadEvent_after_poll s w :
  Inv s ->
  exists n, waitForReadEvent s w = (Ok n, (after_poll s w).1, (after_poll s w).2).
Proof.
  intros HI. unfold after_poll.
  destruct (Z.eqb_spec (valid_replicas_count s) 0) as [H0|Hn].
  - unfold waitForReadEvent. rewrite (proj2 (Z.eqb_eq _ _) H0). eauto.
  - rewrite waitForReadEvent_spec by assumption. eauto.
Qed.

(** Every call keeps the coordinator well formed, moves no replica
    backwards, and moves the cursor by one exactly when it returns a
    packet. *)
Lemma run_call_spec c s w :
  Inv s -> Bounded s w ->
  let '(out, s', w') := run_call c s w in
  Inv s' /\ Bounded s' w' /\ evolves s s' /\ shrinks w w' /\
  next_packet_number s' =
    next_packet_number s + match out with Some _ => 1 | None => 0 end.
Proof.
  intros HI HB. destruct c; simpl.
  - destruct (waitForReadEvent_after_poll s w HI) as (n & ->).
    destruct (after_poll_ok s w HI HB) as (H1 & H2 & H3 & H4).
    destruct (after_poll_same s w) as (_ & _ & Hg & _).
    conjs; auto. lia.
  - destruct (pickConnection_spec s w HI) as (res & -> & _).
    destruct (after_poll_ok s w HI HB) as (H1 & H2 & H3 & H4).
    destruct (after_poll_same s w) as (_ & _ & Hg & _).
    conjs; auto. lia.
  - pose proof (receivePacket_spec fuel s w HI HB) as H.
    destruct (receivePacket fuel s w) as [[[[p|err]|] s'] w'];
      destruct H as (H1 & H2 & H3 & H4 & H5); conjs; auto; lia.
  - conjs; auto using evolves_refl; try lia.
    + eapply Bounded_shrinks; [|exact HB]. apply shrinks_same.
      rewrite sendQuery_spec. reflexivity.
    + apply shrinks_same. rewrite sendQuery_spec. reflexivity.
  - conjs; auto using evolves_refl; try lia.
    + eapply Bounded_shrinks; [|exact HB]. apply shrinks_same.
      rewrite disconnect_spec. reflexivity.
    + apply shrinks_same. rewrite disconnect_spec. reflexivity.
  - conjs; auto using evolves_refl; try lia.
    + eapply Bounded_shrinks; [|exact HB]. apply shrinks_same.
      rewrite sendCancel_spec. reflexivity.
    + apply shrinks_same. rewrite sendCancel_spec. reflexivity.
  - conjs; auto using evolves_refl, drainResidualPackets_shrinks; try lia.
    eapply Bounded_shrinks; [|exact HB]. apply drainResidualPackets_shrinks.
  - conjs; auto using evolves_refl, shrinks_refl. lia.
  - assert (shrinks w (sendExternalTablesData data s w).2) as Hs.
    { unfold sendExternalTablesData.
      destruct (negb _); simpl; [apply shrinks_refl|].
      apply shrinks_same. rewrite send_tables_spec. reflexivity. }
    conjs; auto using evolves_refl; try lia.
    eapply Bounded_shrinks; [|exact HB]. exact Hs.
Qed.

Lemma run_calls_spec cs : forall s w,
  Inv s -> Bounded s w ->
  let '(outs, s', w') := run_calls cs s w in
  Inv s' /\ Bounded s' w' /\ evolves s s' /\ shrinks w w' /\
  next_packet_number s' = next_packet_number s + Z.of_nat (length outs).
Proof.
  induction cs as [|c cs IH]; intros s w HI HB; simpl.
  - conjs; auto using evolves_refl, shrinks_refl. lia.
  - pose proof (run_call_spec c s w HI HB) as H1.
    destruct (run_call c s w) as [[out s1] w1].
    destruct H1 as (HI1 & HB1 & He1 & Hs1 & Hg1).
    specialize (IH s1 w1 HI1 HB1).
    destruct (run_calls cs s1 w1) as [[outs s2] w2].
    destruct IH as (HI2 & HB2 & He2 & Hs2 & Hg2).
    conjs; eauto using evolves_trans, shrinks_trans.
    destruct out; simpl length; lia.
Qed.

(** ** Diagnostics *)

Lemma string_append_assoc (a b c : string) :
  String.append (String.append a b) c = String.append a (String.append b c).
Proof. induction a as [|x a IH]; simpl; [reflexivity|]. now rewrite IH. Qed.

Lemma string_append_nil_r (a : string) : String.append a EmptyString = a.
Proof. induction a as [|x a IH]; simpl; [reflexivity|]. now rewrite IH. Qed.

Lemma occurs_append c (a b : string) :
  occurs c (String.append a b) <-> occurs c a \/ occurs c b.
Proof. induction a as [|x a IH]; simpl; [tauto|]. rewrite IH. tauto. Qed.

Lemma dump_fold h : forall os,
  fold_left (fun os e => (dump_entry os e).1) h os =
  String.append os
    (joined (map (fun e => String NUL (getServerAddress (Replica.connection e.2)))
                 (List.filter (fun e => Replica.is_valid e.2) h))).
Proof.
  induction h as [|e h IH]; intros os; simpl.
  - now rewrite string_append_nil_r.
  - rewrite IH. unfold dump_entry. destruct (Replica.is_valid e.2); simpl; [|reflexivity].
    now rewrite string_append_assoc.
Qed.

Lemma occurs_joined c (l : list string) :
  occurs c (joined (map (String NUL) l)) -> c = NUL \/ exists a, In a l /\ occurs c a.
Proof.
  induction l as [|a l IH]; simpl; [tauto|].
  intros [H|H]; [now left|]. apply occurs_append in H as [H|H].
  - right. eauto.
  - destruct (IH H) as [?|(a' & ? & ?)]; [now left|right; eauto].
Qed.

Lemma dumpAddresses_output_aux s :
  dumpAddresses s =
  if valid_replicas_count s =? 0 then EmptyString
  else joined
         (map (fun e => String NUL (getServerAddress (Replica.connection e.2)))
              (List.filter (fun e => Replica.is_valid e.2) (replica_hash s))).
Proof.
  unfold dumpAddresses. destruct (valid_replicas_count s =? 0); [reflexivity|].
  now rewrite dump_fold.
Qed.

(** ** What the drain leaves *)

Lemma drain_stream_rest c pending : forall tr caught,
  (drain_stream c pending tr caught).1.2 = after_close pending.
Proof.
  induction pending as [|p rest IH]; intros tr caught; simpl; [reflexivity|].
  destruct (type p); simpl; auto.
Qed.

Lemma drain_connection_spec c caught w :
  let '(res, w') := drain_connection c caught w in
  (forall fd, incoming w' fd =
     if fd =? sockfd c then after_close (incoming w (sockfd c)) else incoming w fd) /\
  (exists read, trace w' = trace w ++ map (EvReceivePacket (sockfd c)) read) /\
  (forall err, res = Throw err -> err = NETWORK_ERROR).
Proof.
  unfold drain_connection.
  pose proof (drain_stream_rest (sockfd c) (incoming w (sockfd c)) (trace w) caught) as Hrest.
  destruct (drain_stream_spec (sockfd c) (incoming w (sockfd c)) (trace w) caught)
    as (read & _ & Htr & Hres).
  destruct (drain_stream _ _ _ _) as [[res rest] tr]. simpl in *. subst rest.
  split; [reflexivity|]. split; [eauto|].
  intros err ->. tauto.
Qed.

Lemma drain_replicas_spec h : forall caught w,
  NoDup (map sock h) ->
  let '(res, w') := drain_replicas h caught w in
  (exists evs, trace w' = trace w ++ evs /\ Forall (drained_from h) evs) /\
  (forall fd, (forall x, In x h -> Replica.is_valid x.2 = true -> sock x <> fd) ->
     incoming w' fd = incoming w fd) /\
  match res with
  | Ok _ =>
      forall x, In x h -> Replica.is_valid x.2 = true ->
        incoming w' (sock x) = after_close (incoming w (sock x))
  | Throw err => err = NETWORK_ERROR
  end.
Proof.
  induction h as [|e h IH]; intros caught w Hnd; simpl.
  - split; [exists []; rewrite app_nil_r; auto|]. split; [auto|]. intros x [].
  - simpl in Hnd. apply NoDup_cons in Hnd as [Hfresh Hnd].
    assert (forall evs, Forall (drained_from h) evs -> Forall (drained_from (e :: h)) evs)
      as Hweak.
    { intros evs H. eapply Forall_impl; [exact H|].
      intros ev (x & q & Hin & Hv & ->). exists x, q. simpl. auto. }
    destruct (Replica.is_valid e.2) eqn:Hv.
    + pose proof (drain_connection_spec (Replica.connection e.2) caught w) as Hc.
      destruct (drain_connection _ _ _) as [[caught1|err] w1];
        destruct Hc as (Hin1 & (read & Htr1) & Herr).
      * specialize (IH caught1 w1 Hnd).
        destruct (drain_replicas h caught1 w1) as [res w'].
        destruct IH as ((evs & Htr & Hevs) & Hout & Hres).
        split; [|split].
        -- exists (map (EvReceivePacket (sock e)) read ++ evs).
           rewrite Htr, Htr1, <- app_assoc. split; [reflexivity|].
           apply Forall_app. split; [|now apply Hweak].
           apply Forall_forall. intros ev Hev.
           apply list_elem_of_In, in_map_iff in Hev as (q & <- & _).
           exists e, q. simpl. auto.
        -- intros fd Hfd. rewrite Hout, Hin1.
           ++ destruct (Z.eqb_spec fd (sockfd (Replica.connection e.2))) as [->|]; auto.
              exfalso. apply (Hfd e); simpl; auto.
           ++ intros x Hx Hvx. apply Hfd; simpl; auto.
        -- assert (incoming w' (sock e) = after_close (incoming w (sock e))) as Hself.
           { rewrite Hout, Hin1.
             - unfold sock. now rewrite Z.eqb_refl.
             - intros x Hx _ E. apply Hfresh. rewrite <- E.
               apply list_elem_of_In. now apply in_map. }
           destruct res as [c2|err]; [|exact Hres].
           intros x [<-|Hx] Hvx; [exact Hself|].
           rewrite (Hres x Hx Hvx), Hin1.
           destruct (Z.eqb_spec (sock x) (sockfd (Replica.connection e.2))) as [E|]; auto.
           exfalso. apply Hfresh. fold (sock e) in E. rewrite <- E.
           apply list_elem_of_In. now apply in_map.
      * split; [|split].
        -- exists (map (EvReceivePacket (sock e)) read). split; [exact Htr1|].
           apply Forall_forall. intros ev Hev.
           apply list_elem_of_In, in_map_iff in Hev as (q & <- & _).
           exists e, q. simpl. auto.
        -- intros fd Hfd. rewrite Hin1.
           destruct (Z.eqb_spec fd (sockfd (Replica.connection e.2))) as [->|]; auto.
           exfalso. apply (Hfd e); simpl; auto.
        -- now apply Herr.
    + specialize (IH caught w Hnd).
      destruct (drain_replicas h caught w) as [res w'].
      destruct IH as ((evs & Htr & Hevs) & Hout & Hres).
      split; [|split].
      * exists evs. auto.
      * intros fd Hfd. apply Hout. intros x Hx Hvx. apply Hfd; simpl; auto.
      * destruct res as [c2|err]; [|exact Hres].
        intros x [<-|Hx] Hvx; [congruence|]. now apply Hres.
Qed.

Lemma Inv_socks s : Inv s -> NoDup (map sock (replica_hash s)).
Proof.
  intros [Hk Hs _ _]. replace (map sock (replica_hash s)) with (map fst (replica_hash s)); auto.
  apply map_ext_in. intros x Hx. rewrite Forall_forall in Hs.
  apply Hs. now apply list_elem_of_In.
Qed.

Lemma filter_alter_invalid f i x (h : list (Z * Replica.t)) :
  h !! i = Some x -> Replica.is_valid x.2 = false -> Replica.is_valid (f x).2 = false ->
  List.filter (fun e => Replica.is_valid e.2) (alter f i h) =
  List.filter (fun e => Replica.is_valid e.2) h.
Proof.
  revert i. induction h as [|y h IH]; intros [|i]; simpl; try discriminate.
  - intros [= ->] -> ->. reflexivity.
  - intros Hl Hx Hfx.
    change (list_alter f i h) with (alter f i h). now rewrite (IH i Hl Hx Hfx).
Qed.

(** ** Where a returned packet comes from *)

Lemma drain_replicas_trace h : forall caught w,
  exists evs, trace (drain_replicas h caught w).2 = trace w ++ evs.
Proof.
  induction h as [|e h IH]; intros caught w; simpl.
  - exists []. now rewrite app_nil_r.
  - destruct (Replica.is_valid e.2); [|apply IH].
    pose proof (drain_connection_spec (Replica.connection e.2) caught w) as Hc.
    destruct (drain_connection _ _ _) as [[caught1|err] w1];
      destruct Hc as (_ & (read & Htr1) & _); simpl.
    + destruct (IH caught1 w1) as (evs & Htr). rewrite Htr, Htr1, <- app_assoc. eauto.
    + eauto.
Qed.

Lemma handle_packet_trace i p s w :
  exists evs, trace (handle_packet i p s w).2 = trace w ++ evs.
Proof.
  assert (exists evs, trace w = trace w ++ evs) as Hsame
    by (exists []; now rewrite app_nil_r).
  assert (exists evs,
            trace (drainResidualPackets (invalidate i s) (sendCancel (invalidate i s) w)).2 =
            trace w ++ evs) as Hdrain.
  { unfold drainResidualPackets.
    destruct (drain_replicas_trace (replica_hash (invalidate i s)) false
                (sendCancel (invalidate i s) w)) as (evs & Htr).
    rewrite sendCancel_spec in Htr |- *. simpl in Htr. rewrite <- app_assoc in Htr.
    destruct (drain_replicas _ _ _) as [[c|err] w']; simpl in *; eauto. }
  unfold handle_packet. destruct (type p); simpl; auto;
    destruct (drainResidualPackets _ _) as [[c|err] w']; exact Hdrain.
Qed.

Lemma receive_iteration_trace i e s w :
  let '(res, s', w') := receive_iteration i e.2 s w in
  exists evs, trace w' = trace w ++ evs /\
    forall p, res = Ok (Some p) -> In (EvReceivePacket (sock e) p) evs.
Proof.
  unfold receive_iteration.
  pose proof (conn_receivePacket_spec (Replica.connection e.2) w) as Hrecv.
  destruct (conn_receivePacket (Replica.connection e.2) w) as [[packet|err] w1].
  2:{ destruct Hrecv as (_ & -> & _). exists []. rewrite app_nil_r. split; [auto|discriminate]. }
  destruct Hrecv as (_ & _ & Htr1 & _).
  destruct (handle_packet_trace i packet s w1) as (evs & Htr).
  destruct (handle_packet i packet s w1) as [[[retry|err] s2] w2]; simpl in Htr.
  2:{ exists ([EvReceivePacket (sock e) packet] ++ evs).
      rewrite Htr, Htr1, <- app_assoc. split; [reflexivity|discriminate]. }
  assert (trace w2 = trace w ++ [EvReceivePacket (sock e) packet] ++ evs) as E
    by (rewrite Htr, Htr1, <- app_assoc; reflexivity).
  destruct (_ && _).
  - eexists. split; [exact E|]. intros p [= <-]. simpl. auto.
  - eexists. split; [exact E|]. discriminate.
Qed.

Lemma receive_loop_trace fuel i : forall s w,
  Inv s -> Bounded s w ->
  let '(res, s', w') := receive_loop fuel i s w in
  exists evs, trace w' = trace w ++ evs /\
    forall p e', res = Done (Ok (Some p)) -> replica_hash s' !! i = Some e' ->
      In (EvReceivePacket (sock e') p) evs.
Proof.
  induction fuel as [|fuel IH]; intros s w HI HB; simpl.
  - destruct (replica_hash s !! i) as [e|] eqn:Hl.
    + destruct (Replica.is_valid e.2).
      * exists []. rewrite app_nil_r. split; [auto|discriminate].
      * exists []. rewrite app_nil_r. split; [auto|discriminate].
    + exists []. rewrite app_nil_r. split; [auto|discriminate].
  - destruct (replica_hash s !! i) as [e|] eqn:Hl.
    2:{ exists []. rewrite app_nil_r. split; [auto|discriminate]. }
    destruct (Replica.is_valid e.2) eqn:Hv.
    2:{ exists []. rewrite app_nil_r. split; [auto|discriminate]. }
    pose proof (receive_iteration_spec i e s w HI HB Hl Hv) as Hit.
    pose proof (receive_iteration_trace i e s w) as Htr.
    destruct (receive_iteration i e.2 s w) as [[[[p|]|err] s1] w1];
      destruct Htr as (evs1 & Htr1 & Hsrc).
    + destruct Hit as (_ & _ & He1 & _).
      exists evs1. split; [exact Htr1|]. intros q e' [= <-] Hl'.
      destruct (Forall2_lookup_l _ _ _ _ _ He1 Hl) as (e1 & Hl1 & (_ & C & _)).
      assert (e1 = e') as -> by congruence.
      unfold sock. rewrite C. now apply Hsrc.
    + destruct Hit as (HI1 & HB1 & _).
      specialize (IH s1 w1 HI1 HB1).
      destruct (receive_loop fuel i s1 w1) as [[res s2] w2].
      destruct IH as (evs2 & Htr2 & Hsrc2).
      exists (evs1 ++ evs2). rewrite Htr2, Htr1, <- app_assoc. split; [reflexivity|].
      intros q e' Hq Hl'. apply in_or_app. right. now apply Hsrc2.
    + exists evs1. split; [exact Htr1|discriminate].
Qed.

Lemma after_poll_trace s w : exists evs, trace (after_poll s w).2 = trace w ++ evs.
Proof.
  unfold after_poll. destruct (valid_replicas_count s =? 0); simpl.
  - exists []. now rewrite app_nil_r.
  - eauto.
Qed.

(** A packet that [receivePacket] returns was read, during the call, from
    a replica whose counter is the cursor when the call returns. *)
Lemma receivePacket_source fuel : forall s w,
  Inv s -> Bounded s w ->
  let '(res, s', w') := receivePacket fuel s w in
  exists evs, trace w' = trace w ++ evs /\
    forall p, res = Done (Ok p) ->
      exists i e', replica_hash s' !! i = Some e' /\
        Replica.next_packet_number e'.2 = next_packet_number s' /\
        In (EvReceivePacket (sock e') p) evs.
Proof.
  induction fuel as [|fuel IH]; intros s w HI HB; simpl.
  - exists []. rewrite app_nil_r. split; [auto|discriminate].
  - destruct (pickConnection_spec s w HI) as (res & -> & Hres).
    destruct (after_poll_ok s w HI HB) as (HI1 & HB1 & _).
    destruct (after_poll_trace s w) as (evs0 & Htr0).
    destruct (after_poll s w) as [s1 w1]. simpl in *.
    destruct res as [i|err]; [|exists evs0; split; [exact Htr0|discriminate]].
    pose proof (receive_loop_spec fuel i s1 w1 HI1 HB1) as Hloop.
    pose proof (receive_loop_trace fuel i s1 w1 HI1 HB1) as Htrace.
    destruct (receive_loop fuel i s1 w1) as [[[[[p|]|err]|] s2] w2];
      destruct Hloop as (HI2 & HB2 & _ & _ & Hr);
      destruct Htrace as (evs1 & Htr1 & Hsrc).
    + exists (evs0 ++ evs1). rewrite Htr1, Htr0, <- app_assoc. split; [reflexivity|].
      intros q [= <-]. destruct Hr as (_ & _ & e' & Hl' & Hn').
      exists i, e'. split; [exact Hl'|]. split; [exact Hn'|].
      apply in_or_app. right. now apply Hsrc.
    + specialize (IH s2 w2 HI2 HB2).
      destruct (receivePacket fuel s2 w2) as [[r s3] w3].
      destruct IH as (evs2 & Htr2 & Hsrc2).
      exists (evs0 ++ evs1 ++ evs2). rewrite Htr2, Htr1, Htr0, <- !app_assoc.
      split; [reflexivity|]. intros q Hq.
      destruct (Hsrc2 q Hq) as (j & e' & Hl' & Hn' & Hin).
      exists j, e'. split; [exact Hl'|]. split; [exact Hn'|].
      apply in_or_app. right. apply in_or_app. now right.
    + exists (evs0 ++ evs1). rewrite Htr1, Htr0, <- app_assoc. split; [reflexivity|discriminate].
    + exists (evs0 ++ evs1). rewrite Htr1, Htr0, <- app_assoc. split; [reflexivity|discriminate].
Qed.

(** ** The replica that is taken out *)

(** The other replicas do not share the socket of the replica at [i]. *)
Lemma other_socket i e x s :
  Inv s -> replica_hash s !! i = Some e -> Replica.is_valid e.2 = false ->
  In x (replica_hash s) -> Replica.is_valid x.2 = true -> sock x <> sock e.
Proof.
  intros HI Hl Hv Hx Hvx E.
  assert (x = e) as ->; [|congruence].
  apply (key_determines_entry (replica_hash s)); auto.
  - apply HI.
  - apply list_elem_of_In, list_elem_of_lookup. eauto.
  - destruct HI as [_ Hs _ _]. rewrite Forall_forall in Hs.
    rewrite (Hs x), (Hs e); auto.
    + apply list_elem_of_lookup. eauto.
    + now apply list_elem_of_In.
Qed.

(** A replica that is not valid is not chosen, now or later. *)
Lemma invalid_never_picked i e s s' w :
  replica_hash s !! i = Some e -> Replica.is_valid e.2 = false ->
  Inv s' -> evolves s s' -> (pickConnection s' w).1.1 <> Ok i.
Proof.
  intros Hl Hv HI He Hpick.
  destruct (pickConnection_spec s' w HI) as (res & E & Hres).
  rewrite E in Hpick. simpl in Hpick. subst res.
  destruct Hres as (e2 & Hl2 & _ & Hv2 & _).
  destruct (after_poll_same s' w) as (Hsame & _).
  destruct (Forall2_lookup_r _ _ _ _ _ Hsame Hl2) as (e1 & Hl1 & (_ & _ & Hv1 & _)).
  destruct (Forall2_lookup_r _ _ _ _ _ He Hl1) as (e0 & Hl0 & (_ & _ & Hv0 & _)).
  assert (e0 = e) as -> by congruence.
  specialize (Hv0 Hv). congruence.
Qed.

Lemma invalidate_others i e s :
  replica_hash s !! i = Some e -> Replica.is_valid e.2 = true ->
  valid_count (replica_hash s) =
  S (length (List.filter (fun x => Replica.is_valid x.2) (replica_hash (invalidate i s)))).
Proof. intros Hl Hv. exact (valid_count_invalidate i e _ Hl Hv). Qed.

Lemma advance_others i e1 s1 :
  replica_hash s1 !! i = Some e1 -> Replica.is_valid e1.2 = false ->
  List.filter (fun x => Replica.is_valid x.2)
    (replica_hash (update_replica i Replica.incr_next_packet_number s1)) =
  List.filter (fun x => Replica.is_valid x.2) (replica_hash s1).
Proof. intros Hl Hv. simpl. now apply (filter_alter_invalid _ i e1). Qed.

Lemma drain_stream_ok c pending tr caught :
  (exists b, (drain_stream c pending tr caught).1.1 = Ok b) <-> closes pending.
Proof.
  unfold closes. revert tr. induction pending as [|p rest IH]; intros tr; simpl.
  - split; [intros [b [=]]|intros H; inversion H].
  - rewrite Exists_cons.
    destruct (type p) eqn:Et; simpl;
      try (rewrite IH; split; [tauto|intros [[=]|?]; assumption]);
      (split; [intros _; left; reflexivity|eauto]).
Qed.

Lemma drain_connection_ok c caught w :
  (exists b, (drain_connection c caught w).1 = Ok b) <-> closes (incoming w (sockfd c)).
Proof.
  unfold drain_connection.
  rewrite <- (drain_stream_ok (sockfd c) (incoming w (sockfd c)) (trace w) caught).
  destruct (drain_stream _ _ _ _) as [[res rest] tr]. reflexivity.
Qed.

Lemma drain_replicas_ok h : forall caught w,
  NoDup (map sock h) ->
  (exists b, (drain_replicas h caught w).1 = Ok b) <->
  Forall (fun x => Replica.is_valid x.2 = true -> closes (incoming w (sock x))) h.
Proof.
  induction h as [|e h IH]; intros caught w Hnd; simpl.
  - split; [constructor|eauto].
  - simpl in Hnd. apply NoDup_cons in Hnd as [Hfresh Hnd]. rewrite Forall_cons.
    destruct (Replica.is_valid e.2) eqn:Hv.
    + pose proof (drain_connection_ok (Replica.connection e.2) caught w) as Hok.
      pose proof (drain_connection_spec (Replica.connection e.2) caught w) as Hc.
      destruct (drain_connection _ _ _) as [[caught1|err] w1];
        destruct Hc as (Hin1 & _); simpl in Hok.
      * rewrite (IH caught1 w1 Hnd).
        assert (Forall (fun x => Replica.is_valid x.2 = true -> closes (incoming w1 (sock x))) h
                <-> Forall (fun x => Replica.is_valid x.2 = true -> closes (incoming w (sock x))) h)
          as ->.
        { rewrite !Forall_forall. split; intros H x Hx Hvx; specialize (H x Hx Hvx);
            rewrite Hin1 in *;
            (destruct (Z.eqb_spec (sock x) (sockfd (Replica.connection e.2))) as [E|]; [|exact H]);
            exfalso; apply Hfresh; fold (sock e) in E; rewrite <- E;
            apply list_elem_of_In, in_map, list_elem_of_In; exact Hx. }
        split; [intros H; split; [intros _; apply Hok; eauto|exact H]|tauto].
      * split; [intros [b [=]]|].
        intros [H _]. apply Hok in H; [|reflexivity]. destruct H as [b [=]].
    + rewrite (IH caught w Hnd). split; [intros H; split; [discriminate|exact H]|tauto].
Qed.

Lemma drain_connection_polls c caught w : polls (drain_connection c caught w).2 = polls w.
Proof.
  unfold drain_connection. destruct (drain_stream _ _ _ _) as [[res rest] tr]. reflexivity.
Qed.

Lemma drain_replicas_polls h : forall caught w, polls (drain_replicas h caught w).2 = polls w.
Proof.
  induction h as [|e h IH]; intros caught w; simpl; [reflexivity|].
  destruct (Replica.is_valid e.2); [|apply IH].
  pose proof (drain_connection_polls (Replica.connection e.2) caught w) as Hp.
  destruct (drain_connection _ _ _) as [[caught1|err] w1]; simpl in *; [|exact Hp].
  now rewrite IH.
Qed.

Lemma drainResidualPackets_polls s w : polls (drainResidualPackets s w).2 = polls w.
Proof.
  unfold drainResidualPackets.
  pose proof (drain_replicas_polls (replica_hash s) false w) as Hp.
  destruct (drain_replicas _ _ _) as [[b|err] w']; exact Hp.
Qed.

Lemma drain_stream_reads c pending : forall tr caught,
  (drain_stream c pending tr caught).2 = tr ++ map (EvReceivePacket c) (read_to_close pending).
Proof.
  induction pending as [|p rest IH]; intros tr caught; simpl.
  - now rewrite app_nil_r.
  - destruct (type p); simpl; rewrite ?IH, <- ?app_assoc; reflexivity.
Qed.

Lemma drain_connection_reads c caught w :
  trace (drain_connection c caught w).2 =
  trace w ++ map (EvReceivePacket (sockfd c)) (read_to_close (incoming w (sockfd c))).
Proof.
  unfold drain_connection.
  pose proof (drain_stream_reads (sockfd c) (incoming w (sockfd c)) (trace w) caught) as H.
  destruct (drain_stream _ _ _ _) as [[res rest] tr]. exact H.
Qed.

Lemma drain_reads_ext w w' (h : list (Z * Replica.t)) :
  (forall x, In x h -> Replica.is_valid x.2 = true ->
     incoming w' (sock x) = incoming w (sock x)) ->
  drain_reads w' h = drain_reads w h.
Proof.
  unfold drain_reads. induction h as [|e h IH]; simpl; intros H; [reflexivity|].
  destruct (Replica.is_valid e.2) eqn:Hv; simpl.
  - rewrite (H e) by auto. rewrite IH; auto.
  - apply IH. auto.
Qed.

Lemma drain_replicas_reads h : forall caught w b,
  NoDup (map sock h) ->
  (drain_replicas h caught w).1 = Ok b ->
  trace (drain_replicas h caught w).2 = trace w ++ drain_reads w h.
Proof.
  induction h as [|e h IH]; intros caught w b Hnd; simpl.
  - intros _. unfold drain_reads. simpl. now rewrite app_nil_r.
  - simpl in Hnd. apply NoDup_cons in Hnd as [Hfresh Hnd].
    unfold drain_reads. simpl.
    destruct (Replica.is_valid e.2) eqn:Hv; [|apply IH; exact Hnd].
    pose proof (drain_connection_reads (Replica.connection e.2) caught w) as Htr1.
    pose proof (drain_connection_spec (Replica.connection e.2) caught w) as Hc.
    destruct (drain_connection _ _ _) as [[caught1|err] w1]; [|discriminate].
    destruct Hc as (Hin1 & _). simpl in Htr1. intros Hok.
    rewrite (IH caught1 w1 b Hnd Hok), Htr1, <- app_assoc. simpl. do 2 f_equal.
    apply drain_reads_ext. intros x Hx _. rewrite Hin1.
    destruct (Z.eqb_spec (sock x) (sockfd (Replica.connection e.2))) as [E|]; [|reflexivity].
    exfalso. apply Hfresh. fold (sock e) in E. rewrite <- E.
    apply list_elem_of_In, in_map. exact Hx.
Qed.

Lemma open_stream pending :
  ~ closes pending -> read_to_close pending = pending /\ after_close pending = [].
Proof.
  unfold closes. induction pending as [|p rest IH]; simpl; [auto|].
  rewrite Exists_cons. intros H.
  destruct (streamable (type p)) eqn:Es; [|tauto].
  destruct IH as [-> ->]; [tauto|]. auto.
Qed.

Lemma drain_replicas_fails h : forall caught w err,
  NoDup (map sock h) ->
  (drain_replicas h caught w).1 = Throw err ->
  exists before x after,
    List.filter (fun y => Replica.is_valid y.2) h = before ++ x :: after /\
    Forall (fun y => closes (incoming w (sock y))) before /\
    ~ closes (incoming w (sock x)) /\
    trace (drain_replicas h caught w).2 =
      trace w ++ drain_reads w before ++ map (EvReceivePacket (sock x)) (incoming w (sock x)) /\
    Forall (fun y => incoming (drain_replicas h caught w).2 (sock y) =
                     after_close (incoming w (sock y))) before /\
    incoming (drain_replicas h caught w).2 (sock x) = [] /\
    Forall (fun y => incoming (drain_replicas h caught w).2 (sock y) = incoming w (sock y)) after.
Proof.
  induction h as [|e h IH]; intros caught w err Hnd; simpl; [discriminate|].
  simpl in Hnd. apply NoDup_cons in Hnd as [Hfresh Hnd].
  destruct (Replica.is_valid e.2) eqn:Hv; [|apply IH; exact Hnd].
  assert (forall y, In y h -> sock y <> sock e) as Hne.
  { intros y Hy E. apply Hfresh. rewrite <- E. apply list_elem_of_In. now apply in_map. }
  assert (forall l, (forall y, In y l -> In y h) ->
            forall y, In y l -> (sock y =? sockfd (Replica.connection e.2)) = false) as Hneb.
  { intros l Hl y Hy. apply Z.eqb_neq. apply Hne. auto. }
  pose proof (drain_connection_ok (Replica.connection e.2) caught w) as Hok.
  pose proof (drain_connection_reads (Replica.connection e.2) caught w) as Htr1.
  pose proof (drain_connection_spec (Replica.connection e.2) caught w) as Hc.
  destruct (drain_connection _ _ _) as [[caught1|err1] w1];
    destruct Hc as (Hin1 & _ & _); simpl in Hok, Htr1.
  - intros Hthrow. destruct (IH caught1 w1 err Hnd Hthrow)
      as (before & x & after & Hsplit & Hbefore & Hx & Htr & Hb & Hxe & Ha).
    pose proof (drain_replicas_spec h caught1 w1 Hnd) as Hd.
    destruct (drain_replicas h caught1 w1) as [res w']. simpl in *.
    destruct Hd as (_ & Hout & _).
    assert (forall y, In y (before ++ x :: after) -> In y h) as Hsub.
    { intros y Hy. rewrite <- Hsplit in Hy. now apply filter_In in Hy as [Hy _]. }
    assert (forall y, In y (before ++ x :: after) ->
              incoming w1 (sock y) = incoming w (sock y)) as Hsame.
    { intros y Hy. rewrite Hin1, (Hneb _ Hsub y Hy). reflexivity. }
    exists (e :: before), x, after.
    split; [now rewrite Hsplit|].
    split.
    { constructor; [apply Hok; eauto|].
      rewrite Forall_forall in Hbefore |- *. intros y Hy.
      rewrite <- (Hsame y); [now apply Hbefore|].
      apply in_or_app. left. now apply list_elem_of_In. }
    split; [rewrite <- (Hsame x); [exact Hx|apply in_or_app; right; left; reflexivity]|].
    split.
    { rewrite Htr, Htr1, <- !app_assoc. f_equal.
      unfold drain_reads at 2. simpl. rewrite Hv. simpl. fold (drain_reads w before).
      rewrite <- app_assoc. f_equal. f_equal.
      - apply drain_reads_ext. intros y Hy _. apply Hsame. apply in_or_app. now left.
      - rewrite (Hsame x); [reflexivity|apply in_or_app; right; left; reflexivity]. }
    split.
    { constructor.
      - rewrite Hout, Hin1; [unfold sock; now rewrite Z.eqb_refl|].
        intros y Hy _. now apply Hne.
      - rewrite Forall_forall in Hb |- *. intros y Hy. rewrite (Hb y Hy).
        rewrite (Hsame y); [reflexivity|].
        apply in_or_app. left. now apply list_elem_of_In. }
    split; [exact Hxe|].
    rewrite Forall_forall in Ha |- *. intros y Hy. rewrite (Ha y Hy).
    apply Hsame. apply in_or_app. right. right. now apply list_elem_of_In.
  - intros _.
    assert (~ closes (incoming w (sock e))) as Hopen.
    { intros H. apply Hok in H. destruct H as [b [=]]. }
    destruct (open_stream _ Hopen) as [Hread Hrest].
    exists [], e, (List.filter (fun y => Replica.is_valid y.2) h).
    split; [reflexivity|]. split; [constructor|]. split; [exact Hopen|].
    cbn [fst snd].
    split; [unfold sock in Hread; rewrite Htr1, Hread; reflexivity|].
    split; [constructor|].
    split; [rewrite Hin1; unfold sock; rewrite Z.eqb_refl; exact Hrest|].
    apply Forall_forall. intros y Hy. apply list_elem_of_In, filter_In in Hy as [Hy _].
    rewrite Hin1. destruct (Z.eqb_spec (sock y) (sockfd (Replica.connection e.2))) as [E|]; auto.
    exfalso. now apply (Hne y Hy).
Qed.

(** What else a turn of the receive loop on a terminal packet does. *)
Lemma terminal_iteration_result i e s w p rest :
  Inv s ->
  replica_hash s !! i = Some e -> Replica.is_valid e.2 = true ->
  incoming w (sock e) = p :: rest ->
  type p = EndOfStream \/ type p = Exception ->
  let '(res, s', w') := receive_iteration i e.2 s w in
  let others := List.filter (fun x => Replica.is_valid x.2) (replica_hash s') in
  ((exists out, res = Ok out) <-> Forall (fun x => closes (incoming w (sock x))) others) /\
  polls w' = polls w /\
  (forall fd, (forall x, In x others -> sock x <> fd) ->
     incoming w' fd = if fd =? sock e then rest else incoming w fd) /\
  match res with
  | Ok out =>
      trace w' =
        trace w ++ EvReceivePacket (sock e) p
          :: map (fun x => EvSendCancel (sock x)) others ++ drain_reads w (replica_hash s') /\
      (exists e', replica_hash s' !! i = Some e' /\
         Replica.connection e'.2 = Replica.connection e.2 /\
         Replica.next_packet_number e'.2 = int_incr (Replica.next_packet_number e.2)) /\
      next_packet_number s' =
        (if Replica.next_packet_number e.2 =? next_packet_number s
         then int_incr (next_packet_number s) else next_packet_number s)
  | Throw _ =>
      (exists e', replica_hash s' !! i = Some e' /\
         Replica.connection e'.2 = Replica.connection e.2 /\
         Replica.next_packet_number e'.2 = Replica.next_packet_number e.2) /\
      next_packet_number s' = next_packet_number s /\
      exists before x after,
        others = before ++ x :: after /\
        Forall (fun y => closes (incoming w (sock y))) before /\
        ~ closes (incoming w (sock x)) /\
        trace w' =
          trace w ++ EvReceivePacket (sock e) p
            :: map (fun y => EvSendCancel (sock y)) others ++
               drain_reads w before ++ map (EvReceivePacket (sock x)) (incoming w (sock x)) /\
        Forall (fun y => incoming w' (sock y) = after_close (incoming w (sock y))) before /\
        incoming w' (sock x) = [] /\
        Forall (fun y => incoming w' (sock y) = incoming w (sock y)) after
  end.
Proof.
  intros HI Hl Hv Hhead Hterm.
  pose proof (invalidate_Inv i e s HI Hl Hv) as HI1.
  pose proof (invalidate_lookup i e s Hl) as Hl1.
  unfold receive_iteration, conn_receivePacket. unfold sock in Hhead. rewrite Hhead.
  set (w1 := {| incoming := _; trace := trace w ++ _ |}).
  assert (handle_packet i p s w1 =
          match drainResidualPackets (invalidate i s) (sendCancel (invalidate i s) w1) with
          | (Ok _, w2) => (Ok false, invalidate i s, w2)
          | (Throw err, w2) => (Throw err, invalidate i s, w2)
          end) as ->.
  { unfold handle_packet. destruct Hterm as [-> | ->]; reflexivity. }
  set (s1 := invalidate i s) in *.
  set (O1 := List.filter (fun x => Replica.is_valid x.2) (replica_hash s1)) in *.
  unfold drainResidualPackets.
  pose proof (Inv_socks s1 HI1) as Hnd.
  pose proof (drain_replicas_spec (replica_hash s1) false (sendCancel s1 w1) Hnd) as Hd.
  pose proof (drain_replicas_ok (replica_hash s1) false (sendCancel s1 w1) Hnd) as Hok.
  pose proof (drain_replicas_polls (replica_hash s1) false (sendCancel s1 w1)) as Hpolls.
  pose proof (drain_replicas_reads (replica_hash s1) false (sendCancel s1 w1)) as Hreads.
  pose proof (drain_replicas_fails (replica_hash s1) false (sendCancel s1 w1)) as Hfail.
  rewrite sendCancel_spec in Hd, Hok, Hpolls, Hreads, Hfail |- *.
  fold O1 in Hd, Hok, Hpolls, Hreads, Hfail |- *.
  set (w2 := {| incoming := incoming w1; trace := trace w1 ++ _ |}) in *.
  assert (forall x, In x (replica_hash s1) -> Replica.is_valid x.2 = true ->
            incoming w2 (sock x) = incoming w (sock x)) as Hsame.
  { intros x Hx Hvx. unfold w2, w1. simpl.
    destruct (Z.eqb_spec (sock x) (sockfd (Replica.connection e.2))) as [E|]; [|reflexivity].
    exfalso. apply (other_socket i (on_replica (Replica.set_is_valid false) e) x s1); auto. }
  assert (Forall (fun x => Replica.is_valid x.2 = true -> closes (incoming w2 (sock x)))
                 (replica_hash s1) <->
          Forall (fun x => closes (incoming w (sock x))) O1) as Hcl.
  { rewrite !Forall_forall. split.
    - intros H x Hx. apply list_elem_of_In, filter_In in Hx as [Hx Hvx].
      rewrite <- (Hsame x Hx Hvx). apply H; [now apply list_elem_of_In|exact Hvx].
    - intros H x Hx Hvx. apply list_elem_of_In in Hx. rewrite (Hsame x Hx Hvx).
      apply H. apply list_elem_of_In, filter_In. auto. }
  rewrite Hcl in Hok. clear Hcl.
  assert (drain_reads w2 (replica_hash s1) = drain_reads w (replica_hash s1)) as Hdr.
  { apply drain_reads_ext. exact Hsame. }
  destruct (drain_replicas (replica_hash s1) false w2) as [res w'].
  destruct Hd as (_ & Hout & _). simpl in Hok, Hpolls, Hout.
  assert (forall fd, (forall x, In x O1 -> sock x <> fd) ->
            incoming w' fd = if fd =? sockfd (Replica.connection e.2) then rest
                             else incoming w fd) as Huntouched.
  { intros fd Hfd. rewrite Hout; [reflexivity|].
    intros x Hx Hvx. apply Hfd. apply filter_In. auto. }
  assert (drain_reads w (replica_hash (update_replica i Replica.incr_next_packet_number s1)) =
          drain_reads w (replica_hash s1)) as Hdr2.
  { unfold drain_reads. now rewrite (advance_others i _ s1 Hl1). }
  destruct res as [caught|err].
  - specialize (Hreads caught Hnd eq_refl). cbn [fst snd] in Hreads. rewrite Hdr in Hreads.
    assert (exists e', alter (on_replica Replica.incr_next_packet_number) i (replica_hash s1) !! i
                       = Some e' /\
              Replica.connection e'.2 = Replica.connection e.2 /\
              Replica.next_packet_number e'.2 = int_incr (Replica.next_packet_number e.2)) as He'.
    { rewrite list_lookup_alter_eq, Hl1. simpl. eauto. }
    assert (trace w' =
            trace w ++ EvReceivePacket (sockfd (Replica.connection e.2)) p
              :: map (fun x => EvSendCancel (sock x)) O1 ++ drain_reads w (replica_hash s1))
      as Htrace.
    { rewrite Hreads. unfold w2, w1. simpl. now rewrite <- !app_assoc. }
    assert (forall s2, replica_hash s2 =
              replica_hash (update_replica i Replica.incr_next_packet_number s1) ->
            let others := List.filter (fun x => Replica.is_valid x.2) (replica_hash s2) in
            ((exists out : option Packet, True) <->
             Forall (fun x => closes (incoming w (sock x))) others) /\
            (forall fd, (forall x, In x others -> sock x <> fd) ->
               incoming w' fd = if fd =? sockfd (Replica.connection e.2) then rest
                                else incoming w fd) /\
            trace w' =
              trace w ++ EvReceivePacket (sockfd (Replica.connection e.2)) p
                :: map (fun x => EvSendCancel (sock x)) others ++
                   drain_reads w (replica_hash s2) /\
            (exists e', replica_hash s2 !! i = Some e' /\
               Replica.connection e'.2 = Replica.connection e.2 /\
               Replica.next_packet_number e'.2 = int_incr (Replica.next_packet_number e.2)))
      as Hpost.
    { intros s2 E2 others. subst others. rewrite E2, Hdr2.
      rewrite (advance_others i _ s1 Hl1) by reflexivity. fold O1.
      split; [split; [intros _; apply Hok; eauto|intros _; exists None; exact I]|].
      split; [exact Huntouched|]. split; [exact Htrace|exact He']. }
    change (next_packet_number s1) with (next_packet_number s).
    destruct (Replica.next_packet_number e.2 =? next_packet_number s); simpl.
    + destruct (Hpost (incr_next_packet_number
                         (update_replica i Replica.incr_next_packet_number s1)) eq_refl)
        as ((H1 & _) & H2 & H3 & H4).
      split; [split; [intros _; apply H1; exists None; exact I|eauto]|].
      split; [exact Hpolls|]. split; [exact H2|]. split; [exact H3|]. split; [exact H4|].
      reflexivity.
    + destruct (Hpost (update_replica i Replica.incr_next_packet_number s1) eq_refl)
        as ((H1 & _) & H2 & H3 & H4).
      split; [split; [intros _; apply H1; exists None; exact I|eauto]|].
      split; [exact Hpolls|]. split; [exact H2|]. split; [exact H3|]. split; [exact H4|].
      reflexivity.
  - specialize (Hfail err Hnd eq_refl). cbn [fst snd] in Hfail.
    destruct Hfail as (before & x & after & Hsplit & Hbefore & Hx & Htr & Hb & Hxe & Ha).
    assert (forall y, In y O1 -> incoming w2 (sock y) = incoming w (sock y)) as HsameO.
    { intros y Hy. apply filter_In in Hy as [Hy Hvy]. now apply Hsame. }
    assert (forall y, In y before -> In y O1) as Hsubb.
    { intros y Hy. rewrite Hsplit. apply in_or_app. now left. }
    assert (In x O1) as Hxin.
    { rewrite Hsplit. apply in_or_app. right. now left. }
    assert (drain_reads w2 before = drain_reads w before) as Hdrb.
    { apply drain_reads_ext. intros y Hy _. apply HsameO. auto. }
    rewrite Hdrb, (HsameO x Hxin) in Htr.
    simpl. fold O1.
    split; [split; [intros [out [=]]|intros H; apply Hok in H; destruct H as [b [=]]]|].
    split; [exact Hpolls|]. split; [exact Huntouched|].
    split; [exists (on_replica (Replica.set_is_valid false) e);
            split; [exact Hl1|]; simpl; auto|].
    split; [reflexivity|].
    exists before, x, after. split; [exact Hsplit|].
    split.
    { rewrite Forall_forall in Hbefore |- *. intros y Hy.
      rewrite <- HsameO; [now apply Hbefore|]. apply Hsubb. now apply list_elem_of_In. }
    split; [rewrite <- (HsameO x Hxin); exact Hx|].
    split; [rewrite Htr; unfold w2, w1; simpl; now rewrite <- !app_assoc|].
    split.
    { rewrite Forall_forall in Hb |- *. intros y Hy. rewrite (Hb y Hy).
      f_equal. apply HsameO, Hsubb. now apply list_elem_of_In. }
    split; [exact Hxe|].
    rewrite Forall_forall in Ha |- *. intros y Hy. rewrite (Ha y Hy).
    apply HsameO. rewrite Hsplit. apply in_or_app. right. right. now apply list_elem_of_In.
Qed.

(** What a turn of the receive loop on a terminal packet does to the
    coordinator and sends. *)
Lemma terminal_iteration_effect (i : nat) (e : Z * Replica.t)
    (s : ReplicasConnections) (w : World) (p : Packet) (rest : list Packet) :
  Inv s ->
  replica_hash s !! i = Some e -> Replica.is_valid e.2 = true ->
  incoming w (sock e) = p :: rest ->
  type p = EndOfStream \/ type p = Exception ->
  let '(res, s', w') := receive_iteration i e.2 s w in
  let others := List.filter (fun x => Replica.is_valid x.2) (replica_hash s') in
  (exists e', replica_hash s' !! i = Some e' /\ Replica.is_valid e'.2 = false) /\
  valid_replicas_count s' = valid_replicas_count s - 1 /\
  valid_count (replica_hash s) = S (length others) /\
  (forall j, j <> i -> replica_hash s' !! j = replica_hash s !! j) /\
  (exists drained,
     trace w' =
       trace w ++ EvReceivePacket (sock e) p
         :: map (fun x => EvSendCancel (sock x)) others ++ drained /\
     Forall (fun ev => exists x q, In x others /\ ev = EvReceivePacket (sock x) q) drained) /\
  match res with
  | Ok out =>
      Forall (fun x => incoming w' (sock x) = after_close (incoming w (sock x))) others /\
      out = if Replica.next_packet_number e.2 =? next_packet_number s then Some p else None
  | Throw err => err = NETWORK_ERROR
  end.
Proof.
  intros HI Hl Hv Hhead Hterm.
  pose proof (invalidate_Inv i e s HI Hl Hv) as HI1.
  pose proof (invalidate_lookup i e s Hl) as Hl1.
  pose proof (invalidate_others i e s Hl Hv) as Hcount.
  assert (forall j, j <> i -> replica_hash (invalidate i s) !! j = replica_hash s !! j) as Hrest1.
  { intros j Hj. simpl. apply list_lookup_alter_ne. congruence. }
  unfold receive_iteration, conn_receivePacket. unfold sock in Hhead. rewrite Hhead.
  set (w1 := {| incoming := _; trace := trace w ++ _ |}).
  assert (handle_packet i p s w1 =
          match drainResidualPackets (invalidate i s) (sendCancel (invalidate i s) w1) with
          | (Ok _, w2) => (Ok false, invalidate i s, w2)
          | (Throw err, w2) => (Throw err, invalidate i s, w2)
          end) as ->.
  { unfold handle_packet. destruct Hterm as [-> | ->]; reflexivity. }
  set (s1 := invalidate i s) in *.
  set (O1 := List.filter (fun x => Replica.is_valid x.2) (replica_hash s1)) in *.
  unfold drainResidualPackets.
  pose proof (drain_replicas_spec (replica_hash s1) false (sendCancel s1 w1) (Inv_socks s1 HI1))
    as Hd.
  rewrite sendCancel_spec in Hd |- *. fold O1 in Hd |- *.
  destruct (drain_replicas (replica_hash s1) false _) as [res w'].
  destruct Hd as ((evs & Htr & Hevs) & Hout & Hres). simpl in Htr, Hout, Hres.
  assert (Forall (fun ev => exists x q, In x O1 /\ ev = EvReceivePacket (sock x) q) evs) as Hevs'.
  { eapply Forall_impl; [exact Hevs|]. intros ev (x & q & Hx & Hvx & ->).
    exists x, q. split; [|reflexivity]. apply filter_In. auto. }
  assert (trace w' =
          trace w ++ EvReceivePacket (sock e) p
            :: map (fun x => EvSendCancel (sock x)) O1 ++ evs) as Htrace.
  { rewrite Htr. unfold w1. simpl. now rewrite <- !app_assoc. }
  destruct res as [caught|err].
  - assert (Forall (fun x => incoming w' (sock x) = after_close (incoming w (sock x))) O1)
      as Hdrained.
    { apply Forall_forall. intros x Hx. apply list_elem_of_In, filter_In in Hx as [Hx Hvx].
      rewrite (Hres x Hx Hvx). unfold w1. simpl.
      destruct (Z.eqb_spec (sock x) (sockfd (Replica.connection e.2))) as [E|]; [|reflexivity].
      exfalso. apply (other_socket i (on_replica (Replica.set_is_valid false) e) x s1); auto. }
    assert (forall s2, replica_hash s2 =
              replica_hash (update_replica i Replica.incr_next_packet_number s1) ->
              valid_replicas_count s2 = valid_replicas_count s - 1 ->
            let others := List.filter (fun x => Replica.is_valid x.2) (replica_hash s2) in
            (exists e', replica_hash s2 !! i = Some e' /\ Replica.is_valid e'.2 = false) /\
            valid_replicas_count s2 = valid_replicas_count s - 1 /\
            valid_count (replica_hash s) = S (length others) /\
            (forall j, j <> i -> replica_hash s2 !! j = replica_hash s !! j) /\
            (exists drained,
               trace w' =
                 trace w ++ EvReceivePacket (sock e) p
                   :: map (fun x => EvSendCancel (sock x)) others ++ drained /\
               Forall (fun ev => exists x q, In x others /\ ev = EvReceivePacket (sock x) q)
                      drained) /\
            Forall (fun x => incoming w' (sock x) = after_close (incoming w (sock x))) others)
      as Hpost.
    { intros s2 E2 Hc2 others. subst others. rewrite E2.
      rewrite (advance_others i _ s1 Hl1) by reflexivity. fold O1.
      split; [|split; [exact Hc2|split; [exact Hcount|split; [|split; [eauto|exact Hdrained]]]]].
      - simpl. rewrite list_lookup_alter_eq. simpl in Hl1. rewrite Hl1. simpl. eauto.
      - intros j Hj. simpl. rewrite list_lookup_alter_ne by congruence. now apply Hrest1. }
    change (next_packet_number s1) with (next_packet_number s).
    destruct (Replica.next_packet_number e.2 =? next_packet_number s); simpl.
    + destruct (Hpost (incr_next_packet_number
                         (update_replica i Replica.incr_next_packet_number s1))
                  eq_refl eq_refl) as (H1 & H2 & H3 & H4 & H5 & H6).
      auto 10.
    + destruct (Hpost (update_replica i Replica.incr_next_packet_number s1) eq_refl eq_refl)
        as (H1 & H2 & H3 & H4 & H5 & H6).
      auto 10.
  - simpl. fold O1.
    split; [eauto|]. split; [reflexivity|]. split; [exact Hcount|]. split; [exact Hrest1|].
    split; [eauto|exact Hres].
Qed.

(** ** The loops end *)

Lemma streams_within_evolves m s w s' w' :
  evolves s s' -> shrinks w w' -> streams_within m s w -> streams_within m s' w'.
Proof.
  unfold evolves, streams_within. intros He Hs.
  induction He as [|e e' h h' (_ & C & _) _ IH]; intros H; [constructor|].
  inversion H; subst. constructor; auto.
  unfold sock in *. rewrite C. specialize (Hs (sockfd (Replica.connection e.2))). lia.
Qed.

Lemma evolves_valid_count h h' :
  Forall2 entry_evolves h h' -> (valid_count h' <= valid_count h)%nat.
Proof.
  unfold valid_count. induction 1 as [|e e' h h' (_ & _ & V & _) _ IH]; simpl; [lia|].
  destruct (Replica.is_valid e.2); [destruct (Replica.is_valid e'.2); simpl; lia|].
  rewrite V by reflexivity. exact IH.
Qed.

Lemma evolves_valid_count_lt h h' : forall i e e',
  Forall2 entry_evolves h h' ->
  h !! i = Some e -> Replica.is_valid e.2 = true ->
  h' !! i = Some e' -> Replica.is_valid e'.2 = false ->
  (valid_count h' < valid_count h)%nat.
Proof.
  intros i e e' He. revert i.
  induction He as [|x x' h h' Hx He IH]; intros [|i]; simpl; try discriminate.
  - intros [= ->] Hv [= ->] Hv'. pose proof (evolves_valid_count _ _ He) as Hle.
    unfold valid_count in *. simpl. rewrite Hv, Hv'. simpl. lia.
  - intros Hl Hv Hl' Hv'. specialize (IH i Hl Hv Hl' Hv').
    destruct Hx as (_ & _ & V & _).
    unfold valid_count in *. simpl.
    destruct (Replica.is_valid x.2); [destruct (Replica.is_valid x'.2); simpl; lia|].
    rewrite V by reflexivity. exact IH.
Qed.

Lemma valid_count_pos (h : list (Z * Replica.t)) i e :
  h !! i = Some e -> Replica.is_valid e.2 = true -> (0 < valid_count h)%nat.
Proof.
  unfold valid_count. revert i. induction h as [|x h IH]; intros [|i]; simpl; try discriminate.
  - intros [= ->] ->. simpl. lia.
  - intros Hl Hv. specialize (IH i Hl Hv). destruct (Replica.is_valid x.2); simpl; lia.
Qed.

(** The inner loop ends within as many turns as the connection of the
    replica has packets, and one more. *)
Lemma receive_loop_ends fuel i : forall s w e,
  Inv s -> Bounded s w -> replica_hash s !! i = Some e ->
  (length (incoming w (sock e)) < fuel)%nat ->
  (receive_loop fuel i s w).1.1 <> OutOfFuel.
Proof.
  induction fuel as [|fuel IH]; intros s w e HI HB Hl Hlen; [lia|].
  simpl. rewrite Hl. destruct (Replica.is_valid e.2) eqn:Hv; [|discriminate].
  pose proof (receive_iteration_spec i e s w HI HB Hl Hv) as Hit.
  destruct (receive_iteration i e.2 s w) as [[[[p|]|err] s1] w1]; try discriminate.
  destruct Hit as (HI1 & HB1 & He1 & _ & _ & Hlt).
  destruct (Forall2_lookup_l _ _ _ _ _ He1 Hl) as (e1 & Hl1 & (_ & C & _)).
  apply (IH s1 w1 e1); auto. unfold sock in *. rewrite C. lia.
Qed.

(** X9.  [receivePacket] comes to an end: on a well-formed coordinator whose
    connections have at most [m] packets each to deliver, the function has
    returned or thrown within as many turns of its loops as there are valid
    replicas and [m], since every turn of the outer loop that does not leave
    the function takes one more replica out. *)
Theorem receivePacket_terminates (fuel m : nat) : forall s w,
  Inv s -> Bounded s w -> streams_within m s w ->
  (valid_count (replica_hash s) + m < fuel)%nat ->
  (receivePacket fuel s w).1.1 <> OutOfFuel.
Proof.
  induction fuel as [|fuel IH]; intros s w HI HB Hm Hfuel; [lia|].
  simpl. destruct (pickConnection_spec s w HI) as (res & -> & Hres).
  destruct (after_poll_ok s w HI HB) as (HI1 & HB1 & He1 & Hs1).
  destruct (after_poll_same s w) as (Hsame & _).
  pose proof (streams_within_evolves m _ _ _ _ He1 Hs1 Hm) as Hm1.
  pose proof (same_replica_valid_count _ _ Hsame) as Hvc.
  destruct (after_poll s w) as [s1 w1]. simpl in *.
  destruct res as [i|err]; [|discriminate].
  destruct Hres as (e & Hl & _ & Hv & _).
  pose proof (receive_loop_ends fuel i s1 w1 e HI1 HB1 Hl) as Hends.
  pose proof (receive_loop_spec fuel i s1 w1 HI1 HB1) as Hloop.
  destruct (receive_loop fuel i s1 w1) as [[[[[p|]|err]|] s2] w2]; simpl in *;
    try discriminate.
  - destruct Hloop as (HI2 & HB2 & He2 & Hs2 & _ & Hinv).
    apply IH; auto.
    + eapply streams_within_evolves; eauto.
    + destruct (Forall2_lookup_l _ _ _ _ _ He2 Hl) as (e2 & Hl2 & _).
      pose proof (evolves_valid_count_lt _ _ i e e2 He2 Hl Hv Hl2 (Hinv _ Hl2)). lia.
  - exfalso. apply Hends; [|reflexivity].
    unfold streams_within in Hm1. rewrite Forall_lookup in Hm1.
    specialize (Hm1 _ _ Hl). simpl in Hm1.
    pose proof (valid_count_pos _ _ _ Hl Hv). lia.
Qed.

(** * The properties of the specification *)

Lemma two_replicas_Inv : Inv two_replicas.
Proof.
  split; simpl.
  - repeat constructor; rewrite ?elem_of_cons, ?elem_of_nil; simpl; lia.
  - repeat constructor.
  - reflexivity.
  - repeat constructor; simpl; lia.
Defined.

(** C1.  At any point of a session the cursor is the number of packets
    returned so far; a call of [receivePacket] that returns a packet moves
    the cursor by one, has read that packet during the call from a replica,
    and leaves this replica with a counter equal to the cursor, so both
    were equal and both were incremented; a
    packet of unrecognized type is returned only when no valid replica is
    left, that is with no retry pending; and a call that returns no packet
    leaves the cursor alone. *)
Theorem receivePacket_single_stream (entries : list Connection) (w : World)
    (cs : list Call) (fuel : nat) :
  NoDup (map sockfd entries) ->
  Bounded (construct entries) w ->
  let r := run_calls cs (construct entries) w in
  next_packet_number r.1.2 = Z.of_nat (length r.1.1) /\
  match receivePacket fuel r.1.2 r.2 with
  | (Done (Ok p), s', w') =>
      next_packet_number s' = Z.of_nat (length r.1.1) + 1 /\
      (forall tag, type p = Unrecognized tag -> valid_replicas_count s' = 0) /\
      exists i e' evs,
        replica_hash s' !! i = Some e' /\
        Replica.next_packet_number e'.2 = next_packet_number s' /\
        trace w' = trace r.2 ++ evs /\ In (EvReceivePacket (sock e') p) evs
  | (_, s', _) => next_packet_number s' = Z.of_nat (length r.1.1)
  end.
Proof.
  intros Hnd HB r.
  pose proof (run_calls_spec cs (construct entries) w (construct_Inv _ Hnd) HB) as H1.
  subst r. destruct (run_calls cs (construct entries) w) as [[outs s] w1].
  destruct H1 as (HI & HB1 & _ & _ & Hg). simpl in *.
  assert (next_packet_number s = Z.of_nat (length outs)) as <- by lia.
  split; [reflexivity|].
  pose proof (receivePacket_spec fuel s w1 HI HB1) as H2.
  pose proof (receivePacket_source fuel s w1 HI HB1) as H3.
  destruct (receivePacket fuel s w1) as [[[[p|err]|] s'] w'];
    destruct H2 as (_ & _ & _ & _ & H2); try exact H2.
  destruct H2 as (Hcur & Hu & _). destruct H3 as (evs & Htr & Hsrc).
  destruct (Hsrc p eq_refl) as (i & e' & Hl & Hn & Hin).
  split; [exact Hcur|]. split; [exact Hu|]. exists i, e', evs. auto.
Qed.

Lemma receivePacket_single_stream_witness :
  let r := run_calls [CallReceivePacket 5] three_replicas three_streams in
  next_packet_number r.1.2 = Z.of_nat (length r.1.1) /\
  match receivePacket 5 r.1.2 r.2 with
  | (Done (Ok p), s', w') =>
      next_packet_number s' = Z.of_nat (length r.1.1) + 1 /\
      (forall tag, type p = Unrecognized tag -> valid_replicas_count s' = 0) /\
      exists i e' evs,
        replica_hash s' !! i = Some e' /\
        Replica.next_packet_number e'.2 = next_packet_number s' /\
        trace w' = trace r.2 ++ evs /\ In (EvReceivePacket (sock e') p) evs
  | (_, s', _) => next_packet_number s' = Z.of_nat (length r.1.1)
  end.
Proof.
  apply (receivePacket_single_stream [replica_a; replica_b; replica_c] three_streams).
  - simpl. repeat constructor; rewrite ?elem_of_cons, ?elem_of_nil; simpl; lia.
  - unfold Bounded. simpl. repeat constructor; simpl; unfold INT_MAX; lia.
Defined.

Example pickConnection_prefers_5_over_3 :
  (pickConnection two_replicas three_streams).1.1 = Ok 1%nat.
Proof. reflexivity. Qed.

(** C2.  [pickConnection] first polls, as [waitForReadEvent] does: on a
    count other than 0 there is one call of [select] on the sockets of the
    valid replicas, after which a replica is readable exactly when it is
    valid and [select] found its socket readable, and nothing else is
    written; on a count of 0 nothing changes.  The loop that follows tests
    [can_read] alone, and after the poll a readable replica is valid.  The
    function returns the first, in iteration order, of the replicas that
    are readable and valid after the poll and whose counter is the largest
    among them, and raises [NO_AVAILABLE_REPLICA] when no replica is both
    readable and valid after the poll. *)
Theorem pickConnection_furthest_ahead (s : ReplicasConnections) (w : World) :
  Inv s ->
  let '(res, s', w') := pickConnection s w in
  (s', w') = after_poll s w /\
  (if valid_replicas_count s =? 0 then s' = s /\ w' = w
   else
     replica_hash s' = polled w (replica_hash s) /\
     valid_replicas_count s' = valid_replicas_count s /\
     next_packet_number s' = next_packet_number s /\
     trace w' = trace w ++ [EvSelect (read_list (replica_hash s))] /\
     polls w' = S (polls w) /\ incoming w' = incoming w /\ readable w' = readable w) /\
  match res with
  | Ok i =>
      Forall2 same_replica (replica_hash s) (replica_hash s') /\
      (forall j e', replica_hash s' !! j = Some e' ->
         Replica.can_read e'.2 = true -> Replica.is_valid e'.2 = true) /\
      exists e,
        replica_hash s' !! i = Some e /\
        Replica.can_read e.2 = true /\ Replica.is_valid e.2 = true /\
        (forall j e', replica_hash s' !! j = Some e' ->
           Replica.can_read e'.2 = true -> Replica.is_valid e'.2 = true ->
           Replica.next_packet_number e'.2 <= Replica.next_packet_number e.2) /\
        (forall j e', (j < i)%nat -> replica_hash s' !! j = Some e' ->
           Replica.can_read e'.2 = true -> Replica.is_valid e'.2 = true ->
           Replica.next_packet_number e'.2 < Replica.next_packet_number e.2)
  | Throw err =>
      err = NO_AVAILABLE_REPLICA /\
      Forall2 same_replica (replica_hash s) (replica_hash s') /\
      forall j e, replica_hash s' !! j = Some e ->
        ~ (Replica.can_read e.2 = true /\ Replica.is_valid e.2 = true)
  end.
Proof.
  intros HI. destruct (pickConnection_spec s w HI) as (res & -> & Hres).
  destruct (after_poll_same s w) as (Hsame & _).
  split; [now destruct (after_poll s w)|].
  assert (if valid_replicas_count s =? 0
          then (after_poll s w).1 = s /\ (after_poll s w).2 = w
          else
            replica_hash (after_poll s w).1 = polled w (replica_hash s) /\
            valid_replicas_count (after_poll s w).1 = valid_replicas_count s /\
            next_packet_number (after_poll s w).1 = next_packet_number s /\
            trace (after_poll s w).2 = trace w ++ [EvSelect (read_list (replica_hash s))] /\
            polls (after_poll s w).2 = S (polls w) /\
            incoming (after_poll s w).2 = incoming w /\
            readable (after_poll s w).2 = readable w) as Hpoll.
  { unfold after_poll. destruct (valid_replicas_count s =? 0); simpl; auto 10. }
  split; [exact Hpoll|].
  destruct res as [i|err]; [|destruct Hres as (-> & Hnone); auto].
  split; [exact Hsame|]. split; [|exact Hres].
  destruct (Z.eqb_spec (valid_replicas_count s) 0) as [H0|Hn].
  - exfalso. destruct Hpoll as [Es _]. rewrite Es in Hres.
    destruct Hres as (e & Hl & _ & Hv & _).
    destruct HI as [_ _ Hc _]. rewrite H0 in Hc.
    assert (valid_count (replica_hash s) = O) as Hz by lia.
    apply valid_count_zero in Hz. rewrite Forall_forall in Hz.
    rewrite (Hz e) in Hv; [discriminate|]. apply list_elem_of_lookup. eauto.
  - destruct Hpoll as [Eh _]. rewrite Eh. intros j e' Hj Hr.
    destruct (polled_lookup _ _ _ _ Hj) as (e0 & _ & _ & _ & _ & Hv & Hc).
    rewrite Hv. rewrite Hr in Hc. symmetry in Hc. apply andb_true_iff in Hc. tauto.
Qed.

Lemma pickConnection_furthest_ahead_witness :
  let '(res, s', w') := pickConnection two_replicas three_streams in
  (s', w') = after_poll two_replicas three_streams /\
  (if valid_replicas_count two_replicas =? 0 then s' = two_replicas /\ w' = three_streams
   else
     replica_hash s' = polled three_streams (replica_hash two_replicas) /\
     valid_replicas_count s' = valid_replicas_count two_replicas /\
     next_packet_number s' = next_packet_number two_replicas /\
     trace w' = trace three_streams ++ [EvSelect (read_list (replica_hash two_replicas))] /\
     polls w' = S (polls three_streams) /\ incoming w' = incoming three_streams /\ readable w' = readable three_streams) /\
  match res with
  | Ok i =>
      Forall2 same_replica (replica_hash two_replicas) (replica_hash s') /\
      (forall j e', replica_hash s' !! j = Some e' ->
         Replica.can_read e'.2 = true -> Replica.is_valid e'.2 = true) /\
      exists e,
        replica_hash s' !! i = Some e /\
        Replica.can_read e.2 = true /\ Replica.is_valid e.2 = true /\
        (forall j e', replica_hash s' !! j = Some e' ->
           Replica.can_read e'.2 = true -> Replica.is_valid e'.2 = true ->
           Replica.next_packet_number e'.2 <= Replica.next_packet_number e.2) /\
        (forall j e', (j < i)%nat -> replica_hash s' !! j = Some e' ->
           Replica.can_read e'.2 = true -> Replica.is_valid e'.2 = true ->
           Replica.next_packet_number e'.2 < Replica.next_packet_number e.2)
  | Throw err =>
      err = NO_AVAILABLE_REPLICA /\
      Forall2 same_replica (replica_hash two_replicas) (replica_hash s') /\
      forall j e, replica_hash s' !! j = Some e ->
        ~ (Replica.can_read e.2 = true /\ Replica.is_valid e.2 = true)
  end.
Proof. apply (pickConnection_furthest_ahead two_replicas three_streams two_replicas_Inv). Defined.

(** C3.  When the receive loop reads an end of stream or an exception from
    the valid replica at [i], then by the end of that turn of the loop the
    replica is not valid, the count is one less and so is the number of
    valid replicas, the other entries are as they were, every other valid
    replica has been sent a cancel right after the packet was read, and the
    drain has read from these replicas only, without a poll and without
    touching another socket.  The turn ends normally exactly when the stream
    of every other valid replica has a packet that closes it; then each of
    these streams has been read up to and including that packet, the
    counter of the replica has moved by one, and the terminal packet is
    returned, and the cursor moved, exactly when the counter of the replica
    was the cursor.  Otherwise the turn ends on the failure of a read, at
    the first of the other valid replicas whose stream has no such packet:
    the streams before it have been read up to their closing packets, its
    own stream has been read whole, the streams after it have not been
    read, and neither counter has moved. *)
Theorem terminal_packet_cancels_and_drains (i : nat) (e : Z * Replica.t)
    (s : ReplicasConnections) (w : World) (p : Packet) (rest : list Packet) :
  Inv s ->
  replica_hash s !! i = Some e -> Replica.is_valid e.2 = true ->
  incoming w (sock e) = p :: rest ->
  type p = EndOfStream \/ type p = Exception ->
  let '(res, s', w') := receive_iteration i e.2 s w in
  let others := List.filter (fun x => Replica.is_valid x.2) (replica_hash s') in
  (exists e', replica_hash s' !! i = Some e' /\ Replica.is_valid e'.2 = false) /\
  valid_replicas_count s' = valid_replicas_count s - 1 /\
  valid_count (replica_hash s) = S (length others) /\
  (forall j, j <> i -> replica_hash s' !! j = replica_hash s !! j) /\
  (exists drained,
     trace w' =
       trace w ++ EvReceivePacket (sock e) p
         :: map (fun x => EvSendCancel (sock x)) others ++ drained /\
     Forall (fun ev => exists x q, In x others /\ ev = EvReceivePacket (sock x) q) drained) /\
  ((exists out, res = Ok out) <-> Forall (fun x => closes (incoming w (sock x))) others) /\
  polls w' = polls w /\
  (forall fd, (forall x, In x others -> sock x <> fd) ->
     incoming w' fd = if fd =? sock e then rest else incoming w fd) /\
  match res with
  | Ok out =>
      Forall (fun x => incoming w' (sock x) = after_close (incoming w (sock x))) others /\
      out = (if Replica.next_packet_number e.2 =? next_packet_number s
             then Some p else None) /\
      trace w' =
        trace w ++ EvReceivePacket (sock e) p
          :: map (fun x => EvSendCancel (sock x)) others ++ drain_reads w (replica_hash s') /\
      (exists e', replica_hash s' !! i = Some e' /\
         Replica.connection e'.2 = Replica.connection e.2 /\
         Replica.next_packet_number e'.2 = int_incr (Replica.next_packet_number e.2)) /\
      next_packet_number s' =
        (if Replica.next_packet_number e.2 =? next_packet_number s
         then int_incr (next_packet_number s) else next_packet_number s)
  | Throw err =>
      err = NETWORK_ERROR /\
      (exists e', replica_hash s' !! i = Some e' /\
         Replica.connection e'.2 = Replica.connection e.2 /\
         Replica.next_packet_number e'.2 = Replica.next_packet_number e.2) /\
      next_packet_number s' = next_packet_number s /\
      exists before x after,
        others = before ++ x :: after /\
        Forall (fun y => closes (incoming w (sock y))) before /\
        ~ closes (incoming w (sock x)) /\
        trace w' =
          trace w ++ EvReceivePacket (sock e) p
            :: map (fun y => EvSendCancel (sock y)) others ++
               drain_reads w before ++ map (EvReceivePacket (sock x)) (incoming w (sock x)) /\
        Forall (fun y => incoming w' (sock y) = after_close (incoming w (sock y))) before /\
        incoming w' (sock x) = [] /\
        Forall (fun y => incoming w' (sock y) = incoming w (sock y)) after
  end.
Proof.
  intros HI Hl Hv Hhead Hterm.
  pose proof (terminal_iteration_effect i e s w p rest HI Hl Hv Hhead Hterm) as H1.
  pose proof (terminal_iteration_result i e s w p rest HI Hl Hv Hhead Hterm) as H2.
  destruct (receive_iteration i e.2 s w) as [[res s'] w'].
  cbv zeta in H1, H2 |- *.
  destruct H1 as (A1 & A2 & A3 & A4 & A5 & A6).
  destruct H2 as (B1 & B2 & B3 & B4).
  split; [exact A1|]. split; [exact A2|]. split; [exact A3|]. split; [exact A4|].
  split; [exact A5|]. split; [exact B1|]. split; [exact B2|]. split; [exact B3|].
  destruct res as [out|err].
  - destruct A6 as (A6 & A7). destruct B4 as (B4 & B5 & B6). auto 10.
  - destruct B4 as (B4 & B5 & B6). auto.
Qed.

Example terminal_packet_trace :
  trace (receive_iteration 0 first_of_two.2 two_replicas closing_streams).2 =
  [EvReceivePacket 10 (mkPacket EndOfStream 2); EvSendCancel 11;
   EvReceivePacket 11 (mkPacket Data 3); EvReceivePacket 11 (mkPacket EndOfStream 5)].
Proof. reflexivity. Qed.

Lemma terminal_packet_cancels_and_drains_witness :
  let '(res, s', w') := receive_iteration 0%nat first_of_two.2 two_replicas closing_streams in
  let others := List.filter (fun x => Replica.is_valid x.2) (replica_hash s') in
  (exists e', replica_hash s' !! 0%nat = Some e' /\ Replica.is_valid e'.2 = false) /\
  valid_replicas_count s' = valid_replicas_count two_replicas - 1 /\
  valid_count (replica_hash two_replicas) = S (length others) /\
  (forall j, j <> 0%nat -> replica_hash s' !! j = replica_hash two_replicas !! j) /\
  (exists drained,
     trace w' =
       trace closing_streams ++ EvReceivePacket (sock first_of_two) (mkPacket EndOfStream 2)
         :: map (fun x => EvSendCancel (sock x)) others ++ drained /\
     Forall (fun ev => exists x q, In x others /\ ev = EvReceivePacket (sock x) q) drained) /\
  ((exists out, res = Ok out) <-> Forall (fun x => closes (incoming closing_streams (sock x))) others) /\
  polls w' = polls closing_streams /\
  (forall fd, (forall x, In x others -> sock x <> fd) ->
     incoming w' fd = if fd =? sock first_of_two then [] else incoming closing_streams fd) /\
  match res with
  | Ok out =>
      Forall (fun x => incoming w' (sock x) = after_close (incoming closing_streams (sock x))) others /\
      out = (if Replica.next_packet_number first_of_two.2 =? next_packet_number two_replicas
             then Some (mkPacket EndOfStream 2) else None) /\
      trace w' =
        trace closing_streams ++ EvReceivePacket (sock first_of_two) (mkPacket EndOfStream 2)
          :: map (fun x => EvSendCancel (sock x)) others ++ drain_reads closing_streams (replica_hash s') /\
      (exists e', replica_hash s' !! 0%nat = Some e' /\
         Replica.connection e'.2 = Replica.connection first_of_two.2 /\
         Replica.next_packet_number e'.2 = int_incr (Replica.next_packet_number first_of_two.2)) /\
      next_packet_number s' =
        (if Replica.next_packet_number first_of_two.2 =? next_packet_number two_replicas
         then int_incr (next_packet_number two_replicas) else next_packet_number two_replicas)
  | Throw err =>
      err = NETWORK_ERROR /\
      (exists e', replica_hash s' !! 0%nat = Some e' /\
         Replica.connection e'.2 = Replica.connection first_of_two.2 /\
         Replica.next_packet_number e'.2 = Replica.next_packet_number first_of_two.2) /\
      next_packet_number s' = next_packet_number two_replicas /\
      exists before x after,
        others = before ++ x :: after /\
        Forall (fun y => closes (incoming closing_streams (sock y))) before /\
        ~ closes (incoming closing_streams (sock x)) /\
        trace w' =
          trace closing_streams ++ EvReceivePacket (sock first_of_two) (mkPacket EndOfStream 2)
            :: map (fun y => EvSendCancel (sock y)) others ++
               drain_reads closing_streams before ++
               map (EvReceivePacket (sock x)) (incoming closing_streams (sock x)) /\
        Forall (fun y => incoming w' (sock y) = after_close (incoming closing_streams (sock y)))
               before /\
        incoming w' (sock x) = [] /\
        Forall (fun y => incoming w' (sock y) = incoming closing_streams (sock y)) after
  end.
Proof.
  apply (terminal_packet_cancels_and_drains 0 first_of_two two_replicas closing_streams
           (mkPacket EndOfStream 2) []).
  - exact two_replicas_Inv.
  - reflexivity.
  - reflexivity.
  - reflexivity.
  - left. reflexivity.
Defined.

(** C4.  When the receive loop reads a packet of unrecognized type from the
    valid replica at [i], then by the end of that turn of the loop the
    replica is not valid and the count is one less; the retry flag is set
    exactly when a valid replica is left, and then the turn returns nothing;
    nothing is done to the connections but the read of that packet, so no
    cancel is sent and nothing is drained; a turn that returns nothing
    ends the inner loop, so that the outer loop picks again; and
    [pickConnection] never chooses the replica at [i] again. *)
Theorem unrecognized_packet_retries (i : nat) (e : Z * Replica.t)
    (s : ReplicasConnections) (w : World) (p : Packet) (rest : list Packet) (tag : N) :
  Inv s -> Bounded s w ->
  replica_hash s !! i = Some e -> Replica.is_valid e.2 = true ->
  incoming w (sock e) = p :: rest ->
  type p = Unrecognized tag ->
  let '(res, s', w') := receive_iteration i e.2 s w in
  let others := List.filter (fun x => Replica.is_valid x.2) (replica_hash s') in
  (exists e', replica_hash s' !! i = Some e' /\ Replica.is_valid e'.2 = false) /\
  valid_replicas_count s' = valid_replicas_count s - 1 /\
  valid_count (replica_hash s) = S (length others) /\
  (forall j, j <> i -> replica_hash s' !! j = replica_hash s !! j) /\
  (forall w1, handle_packet i p s w1 =
              (Ok (match others with [] => false | _ :: _ => true end), invalidate i s, w1)) /\
  res = Ok (match others with
            | [] => if Replica.next_packet_number e.2 =? next_packet_number s
                    then Some p else None
            | _ :: _ => None
            end) /\
  trace w' = trace w ++ [EvReceivePacket (sock e) p] /\
  (forall fd, incoming w' fd = if fd =? sock e then rest else incoming w fd) /\
  (res = Ok None -> forall fuel, receive_loop (S fuel) i s w = (Done (Ok None), s', w')) /\
  (forall s'' w'', Inv s'' -> evolves s' s'' -> (pickConnection s'' w'').1.1 <> Ok i).
Proof.
  intros HI HB Hl Hv Hhead Htype.
  assert (let '(res, s', w') := receive_iteration i e.2 s w in
          (exists e', replica_hash s' !! i = Some e' /\ Replica.is_valid e'.2 = false) ->
          res = Ok None -> forall fuel,
          receive_loop (S fuel) i s w = (Done (Ok None), s', w')) as Hleft.
  { simpl. rewrite Hl, Hv.
    destruct (receive_iteration i e.2 s w) as [[res s'] w'].
    intros (e' & Hl' & Hv') -> fuel.
    destruct fuel; simpl; rewrite Hl', Hv'; reflexivity. }
  revert Hleft.
  pose proof (receive_iteration_spec i e s w HI HB Hl Hv) as Hspec.
  pose proof (invalidate_Inv i e s HI Hl Hv) as HI1.
  pose proof (invalidate_lookup i e s Hl) as Hl1.
  pose proof (invalidate_others i e s Hl Hv) as Hcount.
  set (s1 := invalidate i s) in *.
  set (O1 := List.filter (fun x => Replica.is_valid x.2) (replica_hash s1)) in *.
  assert (forall w1, handle_packet i p s w1 =
            (Ok (match O1 with [] => false | _ :: _ => true end), s1, w1)) as Hhandle.
  { intros w1. unfold handle_packet. rewrite Htype. fold s1. do 2 f_equal.
    pose proof (inv_count _ HI1) as Hc. unfold valid_count in Hc. fold O1 in Hc.
    rewrite Hc. destruct O1; reflexivity. }
  revert Hspec. unfold receive_iteration, conn_receivePacket.
  unfold sock in Hhead. rewrite Hhead. rewrite Hhandle.
  change (next_packet_number s1) with (next_packet_number s).
  assert (forall s2, replica_hash s2 =
            replica_hash (update_replica i Replica.incr_next_packet_number s1) ->
          List.filter (fun x => Replica.is_valid x.2) (replica_hash s2) = O1 /\
          (exists e', replica_hash s2 !! i = Some e' /\ Replica.is_valid e'.2 = false) /\
          (forall j, j <> i -> replica_hash s2 !! j = replica_hash s !! j)) as Hpost.
  { intros s2 E2. rewrite E2. split; [|split].
    - now apply (advance_others i _ s1 Hl1).
    - simpl. rewrite list_lookup_alter_eq. simpl in Hl1. rewrite Hl1. simpl. eauto.
    - intros j Hj. simpl. rewrite !list_lookup_alter_ne by congruence. reflexivity. }
  assert (forall s2, Inv s2 ->
            (exists e', replica_hash s2 !! i = Some e' /\ Replica.is_valid e'.2 = false) ->
            forall s'' w'', Inv s'' -> evolves s2 s'' -> (pickConnection s'' w'').1.1 <> Ok i)
    as Hnever.
  { intros s2 _ (e' & Hl' & Hv') s'' w'' HI'' He''.
    eapply invalid_never_picked; eauto. }
  destruct ((Replica.next_packet_number e.2 =? next_packet_number s) &&
            negb (match O1 with [] => false | _ :: _ => true end)) eqn:Htest.
  - intros (HI2 & _) Hleft.
    destruct (Hpost (incr_next_packet_number
                       (update_replica i Replica.incr_next_packet_number s1)) eq_refl)
      as (HO & Hinv & Hothers).
    cbv zeta. rewrite HO.
    split; [exact Hinv|]. split; [reflexivity|]. split; [exact Hcount|].
    split; [exact Hothers|]. split; [exact Hhandle|].
    apply andb_true_iff in Htest as [Hn Hr].
    split; [destruct O1; [now rewrite Hn|discriminate]|].
    split; [reflexivity|]. split; [reflexivity|]. split; [auto|]. now apply Hnever.
  - intros (HI2 & _) Hleft.
    destruct (Hpost (update_replica i Replica.incr_next_packet_number s1) eq_refl)
      as (HO & Hinv & Hothers).
    cbv zeta. rewrite HO.
    split; [exact Hinv|]. split; [reflexivity|]. split; [exact Hcount|].
    split; [exact Hothers|]. split; [exact Hhandle|].
    split; [destruct O1; simpl in Htest; [rewrite andb_true_r in Htest; now rewrite Htest
                                          |reflexivity]|].
    split; [reflexivity|]. split; [reflexivity|]. split; [auto|]. now apply Hnever.
Qed.

Example unrecognized_packet_trace :
  let r := receive_iteration 0 first_of_two.2 two_replicas garbled_streams in
  r.1.1 = Ok None /\ trace r.2 = [EvReceivePacket 10 (mkPacket (Unrecognized 99) 2)].
Proof. split; reflexivity. Qed.

Lemma unrecognized_packet_retries_witness :
  let '(res, s', w') := receive_iteration 0 first_of_two.2 two_replicas garbled_streams in
  let others := List.filter (fun x => Replica.is_valid x.2) (replica_hash s') in
  (exists e', replica_hash s' !! 0%nat = Some e' /\ Replica.is_valid e'.2 = false) /\
  valid_replicas_count s' = valid_replicas_count two_replicas - 1 /\
  valid_count (replica_hash two_replicas) = S (length others) /\
  (forall j, j <> 0%nat -> replica_hash s' !! j = replica_hash two_replicas !! j) /\
  (forall w1, handle_packet 0 (mkPacket (Unrecognized 99) 2) two_replicas w1 =
              (Ok (match others with [] => false | _ :: _ => true end),
               invalidate 0 two_replicas, w1)) /\
  res = Ok (match others with
            | [] => if Replica.next_packet_number first_of_two.2 =?
                       next_packet_number two_replicas
                    then Some (mkPacket (Unrecognized 99) 2) else None
            | _ :: _ => None
            end) /\
  trace w' = trace garbled_streams ++
             [EvReceivePacket (sock first_of_two) (mkPacket (Unrecognized 99) 2)] /\
  (forall fd, incoming w' fd =
              if fd =? sock first_of_two then [mkPacket Data 7]
              else incoming garbled_streams fd) /\
  (res = Ok None -> forall fuel,
     receive_loop (S fuel) 0 two_replicas garbled_streams = (Done (Ok None), s', w')) /\
  (forall s'' w'', Inv s'' -> evolves s' s'' -> (pickConnection s'' w'').1.1 <> Ok 0%nat).
Proof.
  apply (unrecognized_packet_retries 0 first_of_two two_replicas garbled_streams
           (mkPacket (Unrecognized 99) 2) [mkPacket Data 7] 99%N).
  - exact two_replicas_Inv.
  - unfold Bounded. simpl. repeat constructor; simpl; unfold INT_MAX; lia.
  - reflexivity.
  - reflexivity.
  - reflexivity.
  - reflexivity.
Defined.

(** C5, as the claim states it, fails: [disconnect] leaves the replicas
    valid, so a second call closes the connection of a valid replica a
    second time. *)
Lemma disconnect_twice_closes_twice :
  let s := construct [replica_a] in
  trace (disconnect s three_streams) = [EvDisconnect 10] /\
  trace (disconnect s (disconnect s three_streams)) = [EvDisconnect 10; EvDisconnect 10].
Proof. split; reflexivity. Qed.

(** C5, amended.  [disconnect] closes the connection of every valid
    replica, in iteration order, and of no other; it does not change the
    coordinator, so a second call closes the same connections again. *)
Theorem disconnect_closes_valid (s : ReplicasConnections) (w : World) :
  let closed :=
    map (fun e => EvDisconnect (sockfd (Replica.connection e.2)))
        (List.filter (fun e => Replica.is_valid e.2) (replica_hash s)) in
  trace (disconnect s w) = trace w ++ closed /\
  trace (disconnect s (disconnect s w)) = trace w ++ closed ++ closed /\
  incoming (disconnect s w) = incoming w.
Proof.
  intros closed. rewrite !disconnect_spec. simpl.
  rewrite <- app_assoc. auto.
Qed.

(** C6.  From construction on, over distinct sockets and streams that
    cannot overflow a counter, after any sequence of calls the count is the
    number of valid replicas, and from any point of the session to any later
    one every entry stays in place, a replica that is not valid stays so and
    no replica counter decreases. *)
Theorem invariants_hold (entries : list Connection) (w : World) (before after : list Call) :
  NoDup (map sockfd entries) ->
  Bounded (construct entries) w ->
  let r1 := run_calls before (construct entries) w in
  let r2 := run_calls after r1.1.2 r1.2 in
  valid_replicas_count r2.1.2 = Z.of_nat (valid_count (replica_hash r2.1.2)) /\
  Forall2
    (fun e1 e2 =>
       e2.1 = e1.1 /\
       (Replica.is_valid e1.2 = false -> Replica.is_valid e2.2 = false) /\
       Replica.next_packet_number e1.2 <= Replica.next_packet_number e2.2)
    (replica_hash r1.1.2) (replica_hash r2.1.2).
Proof.
  intros Hnd HB r1 r2.
  pose proof (run_calls_spec before (construct entries) w (construct_Inv _ Hnd) HB) as H1.
  subst r2 r1. destruct (run_calls before (construct entries) w) as [[outs1 s1] w1].
  destruct H1 as (HI1 & HB1 & _). simpl.
  pose proof (run_calls_spec after s1 w1 HI1 HB1) as H2.
  destruct (run_calls after s1 w1) as [[outs2 s2] w2].
  destruct H2 as (HI2 & _ & He & _). simpl. split; [apply HI2|].
  eapply Forall2_impl; [exact He|].
  intros e1 e2 (K & _ & V & N). auto.
Qed.

Lemma invariants_hold_witness :
  let r1 := run_calls [CallReceivePacket 5] three_replicas three_streams in
  let r2 := run_calls [CallReceivePacket 5; CallDisconnect] r1.1.2 r1.2 in
  valid_replicas_count r2.1.2 = Z.of_nat (valid_count (replica_hash r2.1.2)) /\
  Forall2
    (fun e1 e2 =>
       e2.1 = e1.1 /\
       (Replica.is_valid e1.2 = false -> Replica.is_valid e2.2 = false) /\
       Replica.next_packet_number e1.2 <= Replica.next_packet_number e2.2)
    (replica_hash r1.1.2) (replica_hash r2.1.2).
Proof.
  apply (invariants_hold [replica_a; replica_b; replica_c] three_streams).
  - simpl. repeat constructor; rewrite ?elem_of_cons, ?elem_of_nil; simpl; lia.
  - unfold Bounded. simpl. repeat constructor; simpl; unfold INT_MAX; lia.
Defined.

(** C7.  With no valid replica counted, [waitForReadEvent] returns 0 and
    makes no call of [select], [pickConnection] and [receivePacket] raise
    [NO_AVAILABLE_REPLICA] and change nothing, and no later sequence of calls
    returns a packet. *)
Theorem no_packet_without_replicas (s : ReplicasConnections) (w : World) :
  valid_replicas_count s = 0 ->
  waitForReadEvent s w = (Ok 0, s, w) /\
  pickConnection s w = (Throw NO_AVAILABLE_REPLICA, s, w) /\
  (forall fuel, receivePacket (S fuel) s w = (Done (Throw NO_AVAILABLE_REPLICA), s, w)) /\
  (forall cs, (run_calls cs s w).1.1 = [] /\ (run_calls cs s w).1.2 = s).
Proof.
  intros H0.
  assert (forall w, waitForReadEvent s w = (Ok 0, s, w)) as Hw.
  { intros w0. unfold waitForReadEvent. now rewrite H0. }
  assert (forall w, pickConnection s w = (Throw NO_AVAILABLE_REPLICA, s, w)) as Hp.
  { intros w0. unfold pickConnection. now rewrite Hw. }
  assert (forall fuel w, receivePacket (S fuel) s w = (Done (Throw NO_AVAILABLE_REPLICA), s, w))
    as Hr.
  { intros fuel w0. simpl. now rewrite Hp. }
  split; [apply Hw|]. split; [apply Hp|]. split; [intros; apply Hr|].
  intros cs. revert w. induction cs as [|c cs IH]; intros w; simpl; [auto|].
  assert (exists w1, run_call c s w = (None, s, w1)) as (w1 & ->).
  { destruct c; simpl; eauto.
    - rewrite Hw. eauto.
    - rewrite Hp. eauto.
    - destruct fuel; [simpl; eauto|]. rewrite Hr. eauto. }
  specialize (IH w1). destruct (run_calls cs s w1) as [[outs s2] w2]. exact IH.
Qed.

Lemma no_packet_without_replicas_witness :
  waitForReadEvent no_replicas three_streams = (Ok 0, no_replicas, three_streams) /\
  pickConnection no_replicas three_streams =
    (Throw NO_AVAILABLE_REPLICA, no_replicas, three_streams) /\
  (forall fuel, receivePacket (S fuel) no_replicas three_streams =
                (Done (Throw NO_AVAILABLE_REPLICA), no_replicas, three_streams)) /\
  (forall cs, (run_calls cs no_replicas three_streams).1.1 = [] /\
              (run_calls cs no_replicas three_streams).1.2 = no_replicas).
Proof. apply (no_packet_without_replicas no_replicas three_streams). reflexivity. Defined.

(** C8.  [sendExternalTablesData] raises [MISMATCH_REPLICAS_DATA_SOURCES]
    and does nothing to any connection when the number of payloads is not
    the number of entries of the table, valid or not; otherwise it sends the
    payloads to the connections of the entries, paired in iteration
    order. *)
Theorem sendExternalTablesData_pairs (data : list ExternalTablesData)
    (s : ReplicasConnections) (w : World) :
  (length data <> length (replica_hash s) ->
   sendExternalTablesData data s w = (Throw MISMATCH_REPLICAS_DATA_SOURCES, w)) /\
  (length data = length (replica_hash s) ->
   exists w',
     sendExternalTablesData data s w = (Ok tt, w') /\
     incoming w' = incoming w /\
     trace w' = trace w ++
       zip_with (fun e d => EvSendExternalTablesData (sockfd (Replica.connection e.2)) d)
                (replica_hash s) data).
Proof.
  unfold sendExternalTablesData. split; intros H.
  - apply Nat.eqb_neq in H. now rewrite H.
  - apply Nat.eqb_eq in H. rewrite H. simpl. eexists. split; [reflexivity|].
    rewrite send_tables_spec. split; reflexivity.
Qed.

Lemma sendExternalTablesData_pairs_witness :
  sendExternalTablesData [7; 8] three_replicas three_streams =
    (Throw MISMATCH_REPLICAS_DATA_SOURCES, three_streams) /\
  exists w',
    sendExternalTablesData [7; 8; 9] three_replicas three_streams = (Ok tt, w') /\
    incoming w' = incoming three_streams /\
    trace w' =
      [EvSendExternalTablesData 10 7; EvSendExternalTablesData 11 8;
       EvSendExternalTablesData 12 9].
Proof.
  split.
  - apply (sendExternalTablesData_pairs [7; 8] three_replicas three_streams).
    simpl. lia.
  - apply (sendExternalTablesData_pairs [7; 8; 9] three_replicas three_streams).
    reflexivity.
Defined.

(** C9.  When the count is the number of valid replicas, [dumpAddresses]
    lists the addresses of exactly the valid replicas, each after a NUL
    character, and every character of the result is a NUL or a character of
    one of these addresses: no [;] is put between them. *)
Theorem dumpAddresses_no_separator (s : ReplicasConnections) :
  valid_replicas_count s = Z.of_nat (valid_count (replica_hash s)) ->
  dumpAddresses s = joined (map (String NUL) (valid_addresses s)) /\
  (forall c, occurs c (dumpAddresses s) ->
     c = NUL \/ exists a, In a (valid_addresses s) /\ occurs c a) /\
  (Forall (fun a => ~ occurs ";"%char a) (valid_addresses s) ->
   ~ occurs ";"%char (dumpAddresses s)).
Proof.
  intros Hc.
  assert (dumpAddresses s = joined (map (String NUL) (valid_addresses s))) as E.
  { rewrite dumpAddresses_output_aux. unfold valid_addresses. rewrite map_map.
    destruct (Z.eqb_spec (valid_replicas_count s) 0) as [H0|_]; [|reflexivity].
    rewrite H0 in Hc. unfold valid_count in Hc.
    destruct (List.filter _ (replica_hash s)); [reflexivity|simpl in Hc; lia]. }
  split; [exact E|]. rewrite E. split.
  - intros c. apply occurs_joined.
  - intros Hall Hocc. apply occurs_joined in Hocc as [Hn|(a & Hin & Ha)]; [discriminate|].
    rewrite Forall_forall in Hall. apply (Hall a); [now apply list_elem_of_In|exact Ha].
Qed.

Example dumpAddresses_three_replicas :
  dumpAddresses three_replicas =
  String NUL (String.append "a:9000"
    (String NUL (String.append "b:9000" (String NUL "c:9000")))).
Proof. reflexivity. Qed.

Lemma dumpAddresses_no_separator_witness :
  dumpAddresses three_replicas = joined (map (String NUL) (valid_addresses three_replicas)) /\
  (forall c, occurs c (dumpAddresses three_replicas) ->
     c = NUL \/ exists a, In a (valid_addresses three_replicas) /\ occurs c a) /\
  (Forall (fun a => ~ occurs ";"%char a) (valid_addresses three_replicas) ->
   ~ occurs ";"%char (dumpAddresses three_replicas)).
Proof. apply (dumpAddresses_no_separator three_replicas). reflexivity. Defined.

(** C10.  [dumpAddresses] returns the empty string when the count is 0, and
    otherwise, for each valid replica in iteration order, a NUL character
    followed by the address of its server. *)
Theorem dumpAddresses_output (s : ReplicasConnections) :
  dumpAddresses s =
  if valid_replicas_count s =? 0 then EmptyString
  else joined
         (map (fun e => String NUL (getServerAddress (Replica.connection e.2)))
              (List.filter (fun e => Replica.is_valid e.2) (replica_hash s))).
Proof. apply dumpAddresses_output_aux. Qed.

(** * Further properties *)

(** ** The constructor *)

Lemma hash_insert_present fd r h :
  In fd (map fst h) -> hash_insert fd r h = h.
Proof.
  induction h as [|e h IH]; simpl; intros Hin; [tauto|].
  destruct (Z.eqb_spec e.1 fd) as [E|Hne]; [reflexivity|].
  rewrite IH; [reflexivity|]. destruct Hin; [contradiction|assumption].
Qed.

(** What the loop of the constructor makes of a table [h]: the keys stay
    distinct, every socket gets a key, and an entry that is added is a fresh
    replica on the first connection of its socket. *)
Lemma construct_loop entries : forall h,
  NoDup (map fst h) ->
  let h' := fold_left (fun h c => hash_insert (sockfd c) (Replica.new c) h) entries h in
  NoDup (map fst h') /\
  (forall fd, In fd (map fst h') <-> In fd (map fst h) \/ In fd (map sockfd entries)) /\
  (forall e, In e h' ->
     In e h \/
     exists before c after,
       entries = before ++ c :: after /\ e = (sockfd c, Replica.new c) /\
       ~ In (sockfd c) (map sockfd before) /\ ~ In (sockfd c) (map fst h)).
Proof.
  induction entries as [|c entries IH]; intros h Hnd; simpl.
  - split; [exact Hnd|]. split; [tauto|]. auto.
  - destruct (in_dec Z.eq_dec (sockfd c) (map fst h)) as [Hin|Hout].
    + rewrite hash_insert_present by assumption.
      destruct (IH h Hnd) as (H1 & H2 & H3). split; [exact H1|]. split.
      * intros fd. rewrite H2. split; [tauto|]. intros [?|[<-|?]]; auto.
      * intros e He. destruct (H3 e He) as [?|(before & c' & after & -> & -> & Hb & Hh)];
          [now left|]. right. exists (c :: before), c', after. simpl.
        repeat split; auto. intros [E|?]; [|contradiction]. apply Hh. now rewrite <- E.
    + rewrite hash_insert_fresh by assumption.
      assert (NoDup (map fst (h ++ [(sockfd c, Replica.new c)]))) as Hnd'.
      { rewrite map_app. simpl. apply NoDup_app. split; [exact Hnd|]. split.
        - intros x Hx Hx'. apply list_elem_of_singleton in Hx'. subst.
          apply Hout. now apply list_elem_of_In.
        - apply NoDup_singleton. }
      destruct (IH _ Hnd') as (H1 & H2 & H3). split; [exact H1|]. split.
      * intros fd. rewrite H2, map_app, in_app_iff. simpl. tauto.
      * intros e He. destruct (H3 e He) as [Hin|(before & c' & after & -> & -> & Hb & Hh)].
        -- apply in_app_iff in Hin as [?|[<-|[]]]; [now left|].
           right. exists [], c, entries. simpl. auto.
        -- right. exists (c :: before), c', after. simpl.
           rewrite map_app, in_app_iff in Hh. simpl in Hh.
           repeat split; auto. intros [E|?]; [|contradiction]. apply Hh. right. now left.
Qed.

(** X1.  On connections with distinct sockets the constructor makes one
    replica per connection, keyed by its socket, valid, not readable and at
    packet 0, in some order; the count is the number of connections and the
    cursor is 0. *)
Theorem construct_one_replica_per_connection (entries : list Connection) :
  NoDup (map sockfd entries) ->
  replica_hash (construct entries) ≡ₚ map (fun c => (sockfd c, Replica.new c)) entries /\
  valid_replicas_count (construct entries) =
    Z.of_nat (valid_count (replica_hash (construct entries))) /\
  valid_count (replica_hash (construct entries)) = length entries /\
  next_packet_number (construct entries) = 0.
Proof.
  intros Hnd. rewrite construct_hash by assumption.
  assert (valid_count (map (fun c => (sockfd c, Replica.new c)) entries) = length entries) as E.
  { unfold valid_count. clear Hnd. induction entries as [|c entries IH]; simpl; congruence. }
  split; [reflexivity|]. rewrite E. simpl. auto.
Qed.

Lemma construct_one_replica_per_connection_witness :
  replica_hash three_replicas ≡ₚ
    map (fun c => (sockfd c, Replica.new c)) [replica_a; replica_b; replica_c] /\
  valid_replicas_count three_replicas = Z.of_nat (valid_count (replica_hash three_replicas)) /\
  valid_count (replica_hash three_replicas) = length [replica_a; replica_b; replica_c] /\
  next_packet_number three_replicas = 0.
Proof.
  apply (construct_one_replica_per_connection [replica_a; replica_b; replica_c]).
  simpl. repeat constructor; rewrite ?elem_of_cons, ?elem_of_nil; simpl; lia.
Defined.

(** X2.  Whatever the connections, the keys of the table the constructor
    builds are distinct and are the sockets of the connections, and every
    entry is a fresh replica on the first connection of its socket: a later
    connection on the same socket is dropped.  The count still counts it, so
    when two connections share a socket the count exceeds the number of
    valid replicas. *)
Theorem construct_drops_repeated_sockets (entries : list Connection) :
  let h := replica_hash (construct entries) in
  NoDup (map fst h) /\
  (forall fd, In fd (map fst h) <-> In fd (map sockfd entries)) /\
  (forall e, In e h ->
     exists before c after,
       entries = before ++ c :: after /\ e = (sockfd c, Replica.new c) /\
       ~ In (sockfd c) (map sockfd before)) /\
  (~ NoDup (map sockfd entries) ->
   Z.of_nat (valid_count h) < valid_replicas_count (construct entries)).
Proof.
  intros h. subst h. simpl.
  destruct (construct_loop entries [] (NoDup_nil_2 (A:=Z))) as (H1 & H2 & H3).
  simpl in *. set (h := fold_left _ entries []) in *.
  split; [exact H1|]. split; [intros fd; rewrite H2; tauto|]. split.
  - intros e He. destruct (H3 e He) as [[]|(before & c & after & E & -> & Hb & _)]. eauto 10.
  - intros Hdup.
    assert (map fst h ⊆+ map sockfd entries) as Hsub.
    { apply NoDup_submseteq; [exact H1|]. intros fd Hfd.
      apply list_elem_of_In. apply list_elem_of_In in Hfd.
      apply H2 in Hfd. destruct Hfd as [[]|Hfd]. exact Hfd. }
    assert (length h <= length entries)%nat as Hle.
    { rewrite <- (length_map fst h), <- (length_map sockfd entries).
      now apply submseteq_length. }
    assert (length h <> length entries) as Hne.
    { intros E. apply Hdup.
      assert (map fst h ≡ₚ map sockfd entries) as HP.
      { apply submseteq_length_Permutation; [exact Hsub|]. rewrite !length_map. lia. }
      rewrite <- HP. exact H1. }
    assert (valid_count h <= length h)%nat as Hv by apply filter_length_le.
    lia.
Qed.

Lemma construct_drops_repeated_sockets_witness :
  Z.of_nat (valid_count (replica_hash (construct [replica_a; replica_a_again]))) <
  valid_replicas_count (construct [replica_a; replica_a_again]).
Proof.
  apply (construct_drops_repeated_sockets [replica_a; replica_a_again]).
  simpl. intros H. apply NoDup_cons in H as [H _]. apply H. left.
Defined.

(** ** The poll *)

Lemma ready_count w (h : list (Z * Replica.t)) :
  length (List.filter (readable w (polls w)) (read_list h)) =
  length (List.filter (fun e => Replica.can_read e.2) (polled w h)).
Proof.
  unfold read_list, polled. induction h as [|e h IH]; simpl; [reflexivity|].
  destruct (Replica.is_valid e.2); simpl; [|exact IH].
  destruct (readable w (polls w) (sockfd (Replica.connection e.2))); simpl; congruence.
Qed.

Lemma polled_entries w (h : list (Z * Replica.t)) :
  Forall2
    (fun e e' =>
       same_replica e e' /\
       Replica.can_read e'.2 = Replica.is_valid e.2 && readable w (polls w) (sock e))
    h (polled w h).
Proof.
  unfold polled. induction h as [|e h IH]; simpl; constructor; auto.
  unfold same_replica. simpl. auto.
Qed.

(** X3.  On a well-formed coordinator with a count other than 0,
    [waitForReadEvent] makes one call of [select] on the sockets of the
    valid replicas, never fails, leaves a replica readable exactly when it
    is valid and [select] found its socket readable, whatever [can_read] was
    before, writes nothing else, reads no packet, and returns the number of
    replicas it left readable. *)
Theorem waitForReadEvent_marks_ready (s : ReplicasConnections) (w : World) :
  Inv s -> valid_replicas_count s <> 0 ->
  exists n s' w',
    waitForReadEvent s w = (Ok n, s', w') /\
    Forall2
      (fun e e' =>
         same_replica e e' /\
         Replica.can_read e'.2 = Replica.is_valid e.2 && readable w (polls w) (sock e))
      (replica_hash s) (replica_hash s') /\
    valid_replicas_count s' = valid_replicas_count s /\
    next_packet_number s' = next_packet_number s /\
    n = Z.of_nat (length (List.filter (fun e => Replica.can_read e.2) (replica_hash s'))) /\
    trace w' = trace w ++ [EvSelect (read_list (replica_hash s))] /\
    polls w' = S (polls w) /\ incoming w' = incoming w.
Proof.
  intros HI Hn. rewrite waitForReadEvent_spec by assumption.
  eexists _, _, _. split; [reflexivity|]. simpl.
  split; [apply polled_entries|]. rewrite ready_count. auto 10.
Qed.

Lemma waitForReadEvent_marks_ready_witness :
  exists n s' w',
    waitForReadEvent two_replicas three_streams = (Ok n, s', w') /\
    Forall2
      (fun e e' =>
         same_replica e e' /\
         Replica.can_read e'.2 =
           Replica.is_valid e.2 && readable three_streams (polls three_streams) (sock e))
      (replica_hash two_replicas) (replica_hash s') /\
    valid_replicas_count s' = valid_replicas_count two_replicas /\
    next_packet_number s' = next_packet_number two_replicas /\
    n = Z.of_nat (length (List.filter (fun e => Replica.can_read e.2) (replica_hash s'))) /\
    trace w' = trace three_streams ++ [EvSelect (read_list (replica_hash two_replicas))] /\
    polls w' = S (polls three_streams) /\ incoming w' = incoming three_streams.
Proof.
  apply (waitForReadEvent_marks_ready two_replicas three_streams).
  - exact two_replicas_Inv.
  - simpl. lia.
Defined.

(** X4.  The way out of [waitForReadEvent] without a poll is taken on the
    count alone: when the count is not 0 although no replica is valid, the
    function resets [can_read], calls [select] on an empty read list and
    returns 0. *)
Theorem waitForReadEvent_polls_on_the_count (s : ReplicasConnections) (w : World) :
  valid_replicas_count s <> 0 -> valid_count (replica_hash s) = 0%nat ->
  exists s' w',
    waitForReadEvent s w = (Ok 0, s', w') /\
    replica_hash s' = map (on_replica (Replica.set_can_read false)) (replica_hash s) /\
    trace w' = trace w ++ [EvSelect []] /\ polls w' = S (polls w).
Proof.
  intros Hn Hv. unfold waitForReadEvent.
  destruct (Z.eqb_spec (valid_replicas_count s) 0) as [|_]; [contradiction|].
  unfold valid_count in Hv.
  destruct (List.filter _ (replica_hash s)); [|discriminate]. simpl.
  eexists _, _. split; [reflexivity|]. simpl. auto.
Qed.

Lemma waitForReadEvent_polls_on_the_count_witness :
  exists s' w',
    waitForReadEvent miscounted three_streams = (Ok 0, s', w') /\
    replica_hash s' = map (on_replica (Replica.set_can_read false)) (replica_hash miscounted) /\
    trace w' = trace three_streams ++ [EvSelect []] /\ polls w' = S (polls three_streams).
Proof.
  apply (waitForReadEvent_polls_on_the_count miscounted three_streams).
  - simpl. lia.
  - reflexivity.
Defined.

(** ** The broadcasts *)

(** X5.  [sendQuery] sends the query once to every replica of the table, in
    iteration order, valid or not, while [sendCancel] sends a cancel once to
    each valid replica and to no other; neither reads a packet or polls. *)
Theorem broadcasts_reach (q qid : string) (stage : Z) (pending : bool)
    (s : ReplicasConnections) (w : World) :
  let w1 := sendQuery q qid stage pending s w in
  let w2 := sendCancel s w1 in
  trace w1 = trace w ++ map (fun e => EvSendQuery (sock e) q qid stage pending) (replica_hash s) /\
  trace w2 = trace w1 ++
    map (fun e => EvSendCancel (sock e))
        (List.filter (fun e => Replica.is_valid e.2) (replica_hash s)) /\
  incoming w2 = incoming w /\ polls w2 = polls w.
Proof.
  intros w1 w2. subst w2 w1. rewrite sendCancel_spec, sendQuery_spec. simpl. auto.
Qed.

(** ** The drain, as a whole *)

(** X6.  On a well-formed coordinator [drainResidualPackets] only reads
    packets, and only from valid replicas: the sockets of the other replicas
    keep their streams, nothing is polled, and when the function returns,
    every valid replica has been read up to and including the first packet
    of its stream that is not streamable; the only exception it lets out is
    the failure of a read. *)
Theorem drainResidualPackets_reads_to_the_close (s : ReplicasConnections) (w : World) :
  Inv s ->
  let '(res, w') := drainResidualPackets s w in
  (exists evs, trace w' = trace w ++ evs /\ Forall (drained_from (replica_hash s)) evs) /\
  polls w' = polls w /\
  (forall fd,
     (forall x, In x (replica_hash s) -> Replica.is_valid x.2 = true -> sock x <> fd) ->
     incoming w' fd = incoming w fd) /\
  match res with
  | Ok _ =>
      forall x, In x (replica_hash s) -> Replica.is_valid x.2 = true ->
        incoming w' (sock x) = after_close (incoming w (sock x))
  | Throw err => err = NETWORK_ERROR
  end.
Proof.
  intros HI. pose proof (drainResidualPackets_polls s w) as Hp. revert Hp.
  unfold drainResidualPackets.
  pose proof (drain_replicas_spec (replica_hash s) false w (Inv_socks s HI)) as H.
  destruct (drain_replicas _ _ _) as [[b|err] w']; simpl; intros Hp;
    destruct H as (H1 & H2 & H3); auto.
Qed.

Lemma drainResidualPackets_reads_to_the_close_witness :
  let '(res, w') := drainResidualPackets two_replicas closing_streams in
  (exists evs, trace w' = trace closing_streams ++ evs /\
               Forall (drained_from (replica_hash two_replicas)) evs) /\
  polls w' = polls closing_streams /\
  (forall fd,
     (forall x, In x (replica_hash two_replicas) -> Replica.is_valid x.2 = true ->
                sock x <> fd) ->
     incoming w' fd = incoming closing_streams fd) /\
  match res with
  | Ok _ =>
      forall x, In x (replica_hash two_replicas) -> Replica.is_valid x.2 = true ->
        incoming w' (sock x) = after_close (incoming closing_streams (sock x))
  | Throw err => err = NETWORK_ERROR
  end.
Proof.
  apply (drainResidualPackets_reads_to_the_close two_replicas closing_streams).
  exact two_replicas_Inv.
Defined.

(** X7.  On a well-formed coordinator [drainResidualPackets] returns, rather
    than fail on a read, exactly when the stream of every valid replica has
    a packet that is not streamable; it then returns normally whether or not
    the packets that closed the streams were exceptions or of unrecognized
    type. *)
Theorem drainResidualPackets_returns_iff (s : ReplicasConnections) (w : World) :
  Inv s ->
  ((drainResidualPackets s w).1 = Ok tt <->
   Forall (fun x => Replica.is_valid x.2 = true -> closes (incoming w (sock x)))
          (replica_hash s)) /\
  ((drainResidualPackets s w).1 <> Ok tt -> (drainResidualPackets s w).1 = Throw NETWORK_ERROR).
Proof.
  intros HI.
  pose proof (drain_replicas_ok (replica_hash s) false w (Inv_socks s HI)) as Hok.
  pose proof (drain_replicas_spec (replica_hash s) false w (Inv_socks s HI)) as Hspec.
  unfold drainResidualPackets.
  destruct (drain_replicas _ _ _) as [[b|err] w']; simpl in *.
  - split; [|congruence]. rewrite <- Hok. split; eauto.
  - destruct Hspec as (_ & _ & ->). split; [|reflexivity].
    rewrite <- Hok. split; [discriminate|intros [b [=]]].
Qed.

Lemma drainResidualPackets_returns_iff_witness :
  ((drainResidualPackets two_replicas closing_streams).1 = Ok tt <->
   Forall (fun x => Replica.is_valid x.2 = true -> closes (incoming closing_streams (sock x)))
          (replica_hash two_replicas)) /\
  ((drainResidualPackets two_replicas closing_streams).1 <> Ok tt ->
   (drainResidualPackets two_replicas closing_streams).1 = Throw NETWORK_ERROR).
Proof.
  apply (drainResidualPackets_returns_iff two_replicas closing_streams).
  exact two_replicas_Inv.
Defined.

(** ** One call of receivePacket *)

Lemma handle_packet_polls i p s w : polls (handle_packet i p s w).2 = polls w.
Proof.
  unfold handle_packet.
  pose proof (drainResidualPackets_polls (invalidate i s) (sendCancel (invalidate i s) w)) as Hp.
  rewrite sendCancel_spec in Hp. simpl in Hp.
  destruct (type p); simpl; auto;
    rewrite sendCancel_spec; destruct (drainResidualPackets _ _) as [[b|err] w2]; exact Hp.
Qed.

Lemma receive_iteration_polls i r s w : polls (receive_iteration i r s w).2 = polls w.
Proof.
  unfold receive_iteration.
  pose proof (conn_receivePacket_spec (Replica.connection r) w) as Hrecv.
  destruct (conn_receivePacket (Replica.connection r) w) as [[packet|err] w1].
  2:{ destruct Hrecv as (_ & -> & _). reflexivity. }
  destruct Hrecv as (_ & _ & _ & Hp1 & _).
  pose proof (handle_packet_polls i packet s w1) as Hp2.
  destruct (handle_packet i packet s w1) as [[[retry|err] s2] w2]; simpl in Hp2.
  - destruct (_ && _); simpl; congruence.
  - simpl. congruence.
Qed.

Lemma receive_loop_polls fuel i : forall s w, polls (receive_loop fuel i s w).2 = polls w.
Proof.
  induction fuel as [|fuel IH]; intros s w; simpl.
  - destruct (replica_hash s !! i) as [e|]; [|reflexivity].
    destruct (Replica.is_valid e.2); reflexivity.
  - destruct (replica_hash s !! i) as [e|]; [|reflexivity].
    destruct (Replica.is_valid e.2); [|reflexivity].
    pose proof (receive_iteration_polls i e.2 s w) as Hp.
    destruct (receive_iteration i e.2 s w) as [[[[p|]|err] s1] w1]; simpl in *; auto.
    now rewrite IH.
Qed.

Lemma after_poll_polls s w : (polls (after_poll s w).2 <= S (polls w))%nat.
Proof. unfold after_poll. destruct (valid_replicas_count s =? 0); simpl; lia. Qed.

(** X8.  A call of [receivePacket] polls once, and once more for every
    replica it takes out: the number of polls it makes plus the number of
    valid replicas it leaves is at most the number of valid replicas it
    found plus one. *)
Theorem receivePacket_polls_bounded (fuel : nat) (s : ReplicasConnections) (w : World) :
  Inv s -> Bounded s w ->
  let '(_, s', w') := receivePacket fuel s w in
  (polls w' + valid_count (replica_hash s') <= polls w + valid_count (replica_hash s) + 1)%nat.
Proof.
  revert s w. induction fuel as [|fuel IH]; intros s w HI HB; simpl; [lia|].
  destruct (pickConnection_spec s w HI) as (res & -> & Hres).
  destruct (after_poll_ok s w HI HB) as (HI1 & HB1 & _).
  destruct (after_poll_same s w) as (Hsame & _).
  pose proof (same_replica_valid_count _ _ Hsame) as Hvc.
  pose proof (after_poll_polls s w) as Hp1.
  destruct (after_poll s w) as [s1 w1]. simpl in *.
  destruct res as [i|err]; [|lia].
  destruct Hres as (e & Hl & _ & Hv & _).
  pose proof (receive_loop_spec fuel i s1 w1 HI1 HB1) as Hloop.
  pose proof (receive_loop_polls fuel i s1 w1) as Hp2.
  destruct (receive_loop fuel i s1 w1) as [[[[[p|]|err]|] s2] w2];
    destruct Hloop as (HI2 & HB2 & He2 & _ & Hr); simpl in Hp2;
    pose proof (evolves_valid_count _ _ He2) as Hle; try lia.
  destruct Hr as (_ & Hinv).
  destruct (Forall2_lookup_l _ _ _ _ _ He2 Hl) as (e2 & Hl2 & _).
  pose proof (evolves_valid_count_lt _ _ i e e2 He2 Hl Hv Hl2 (Hinv _ Hl2)) as Hlt.
  specialize (IH s2 w2 HI2 HB2).
  destruct (receivePacket fuel s2 w2) as [[r s3] w3]. lia.
Qed.

Lemma receivePacket_polls_bounded_witness :
  let '(_, s', w') := receivePacket 5 three_replicas three_streams in
  (polls w' + valid_count (replica_hash s') <=
   polls three_streams + valid_count (replica_hash three_replicas) + 1)%nat.
Proof.
  apply (receivePacket_polls_bounded 5 three_replicas three_streams).
  - apply construct_Inv. simpl.
    repeat constructor; rewrite ?elem_of_cons, ?elem_of_nil; simpl; lia.
  - unfold Bounded. simpl. repeat constructor; simpl; unfold INT_MAX; lia.
Defined.

Lemma receivePacket_terminates_witness :
  (receivePacket 7 three_replicas three_streams).1.1 <> OutOfFuel.
Proof.
  apply (receivePacket_terminates 7 3 three_replicas three_streams).
  - apply construct_Inv. simpl.
    repeat constructor; rewrite ?elem_of_cons, ?elem_of_nil; simpl; lia.
  - unfold Bounded. simpl. repeat constructor; simpl; unfold INT_MAX; lia.
  - unfold streams_within. simpl. repeat constructor; simpl; lia.
  - simpl. lia.
Defined.

(** X10.  When [select] finds no socket readable, [receivePacket] raises
    [NO_AVAILABLE_REPLICA] after that one poll: it reads no packet and
    writes nothing but [can_read]. *)
Theorem receivePacket_nothing_readable (fuel : nat) (s : ReplicasConnections) (w : World) :
  Inv s -> (forall fd, readable w (polls w) fd = false) ->
  exists s' w',
    receivePacket (S fuel) s w = (Done (Throw NO_AVAILABLE_REPLICA), s', w') /\
    Forall2 same_replica (replica_hash s) (replica_hash s') /\
    valid_replicas_count s' = valid_replicas_count s /\
    next_packet_number s' = next_packet_number s /\
    incoming w' = incoming w /\ (polls w' <= S (polls w))%nat.
Proof.
  intros HI Hnone. simpl.
  destruct (pickConnection_spec s w HI) as (res & -> & Hres).
  destruct (after_poll_same s w) as (Hsame & Hc & Hg & Hin).
  pose proof (after_poll_polls s w) as Hp.
  destruct res as [i|err].
  - exfalso. destruct Hres as (e & Hl & Hr & Hv & _). revert Hl.
    unfold after_poll. destruct (Z.eqb_spec (valid_replicas_count s) 0) as [H0|Hn]; simpl.
    + intros Hl. pose proof (inv_count _ HI) as Hcount. rewrite H0 in Hcount.
      assert (valid_count (replica_hash s) = O) as Hz by lia.
      apply valid_count_zero in Hz. rewrite Forall_lookup in Hz.
      specialize (Hz _ _ Hl). simpl in Hz. congruence.
    + intros Hl. destruct (polled_lookup _ _ _ _ Hl) as (e0 & _ & _ & _ & _ & _ & Hcr).
      rewrite Hnone, andb_false_r in Hcr. congruence.
  - destruct Hres as (-> & _). destruct (after_poll s w) as [s1 w1]. simpl in *.
    eexists _, _. split; [reflexivity|]. auto 10.
Qed.

(** X11.  While a replica is ahead of the cursor the receive loop returns
    nothing from it: every packet it reads from the replica is dropped, the
    packet that ends the stream too, and the cursor stays. *)
Theorem replica_ahead_never_delivers (fuel i : nat) (e : Z * Replica.t)
    (s : ReplicasConnections) (w : World) :
  Inv s -> Bounded s w ->
  replica_hash s !! i = Some e ->
  next_packet_number s < Replica.next_packet_number e.2 ->
  let '(res, s', _) := receive_loop fuel i s w in
  (forall p, res <> Done (Ok (Some p))) /\ next_packet_number s' = next_packet_number s.
Proof.
  revert e s w. induction fuel as [|fuel IH]; intros e s w HI HB Hl Hahead; simpl; rewrite Hl.
  - destruct (Replica.is_valid e.2); split; auto; discriminate.
  - destruct (Replica.is_valid e.2) eqn:Hv; [|split; auto; discriminate].
    pose proof (receive_iteration_spec i e s w HI HB Hl Hv) as Hit.
    destruct (receive_iteration i e.2 s w) as [[[[p|]|err] s1] w1].
    + destruct Hit as (_ & _ & _ & _ & _ & Heq & _). lia.
    + destruct Hit as (HI1 & HB1 & He1 & _ & Hg & _).
      destruct (Forall2_lookup_l _ _ _ _ _ He1 Hl) as (e1 & Hl1 & (_ & _ & _ & Hn)).
      assert (next_packet_number s1 < Replica.next_packet_number e1.2) as Hahead1 by lia.
      specialize (IH e1 s1 w1 HI1 HB1 Hl1 Hahead1).
      destruct (receive_loop fuel i s1 w1) as [[res s2] w2].
      destruct IH as (Hno & Hg2). split; [exact Hno|congruence].
    + destruct Hit as (_ & _ & _ & _ & Hg). split; [discriminate|exact Hg].
Qed.

Lemma receivePacket_nothing_readable_witness :
  exists s' w',
    receivePacket 3 two_replicas quiet_streams = (Done (Throw NO_AVAILABLE_REPLICA), s', w') /\
    Forall2 same_replica (replica_hash two_replicas) (replica_hash s') /\
    valid_replicas_count s' = valid_replicas_count two_replicas /\
    next_packet_number s' = next_packet_number two_replicas /\
    incoming w' = incoming quiet_streams /\ (polls w' <= S (polls quiet_streams))%nat.
Proof.
  apply (receivePacket_nothing_readable 2 two_replicas quiet_streams).
  - exact two_replicas_Inv.
  - reflexivity.
Defined.

Lemma replica_ahead_never_delivers_witness :
  let '(res, s', _) := receive_loop 4 1 two_replicas closing_streams in
  (forall p, res <> Done (Ok (Some p))) /\
  next_packet_number s' = next_packet_number two_replicas.
Proof.
  apply (replica_ahead_never_delivers 4 1 second_of_two two_replicas closing_streams).
  - exact two_replicas_Inv.
  - unfold Bounded. simpl. repeat constructor; simpl; unfold INT_MAX; lia.
  - reflexivity.
  - simpl. lia.
Defined.

(** ** A replica that is behind *)

(** A turn of the loop on a streamable packet. *)
Lemma streamable_iteration i e s w q rest :
  incoming w (sock e) = q :: rest -> streamable (type q) = true ->
  let w1 := {| incoming := fun c' => if c' =? sock e then rest else incoming w c';
               readable := readable w; polls := polls w;
               trace := trace w ++ [EvReceivePacket (sock e) q] |} in
  receive_iteration i e.2 s w =
  if Replica.next_packet_number e.2 =? next_packet_number s
  then (Ok (Some q),
        incr_next_packet_number (update_replica i Replica.incr_next_packet_number s), w1)
  else (Ok None, update_replica i Replica.incr_next_packet_number s, w1).
Proof.
  intros Hhead Hst w1. unfold receive_iteration, conn_receivePacket.
  unfold sock in Hhead. rewrite Hhead. fold (sock e). fold w1.
  assert (handle_packet i q s w1 = (Ok false, s, w1)) as ->.
  { unfold handle_packet. destruct (type q); try discriminate; reflexivity. }
  rewrite andb_true_r. reflexivity.
Qed.

(** X12.  A valid replica that is behind the cursor catches up: the receive
    loop reads and drops as many streamable packets as the replica is
    behind, returns the next one, which is the packet of its stream that the
    cursor asks for, and leaves the cursor and the counter of the replica
    one past it; the replica stays valid, the other replicas and the other
    connections are not touched, and nothing is sent. *)
Theorem lagging_replica_catches_up (fuel i : nat) (e : Z * Replica.t)
    (s : ReplicasConnections) (w : World) (skipped : list Packet) (p : Packet)
    (rest : list Packet) :
  Inv s -> Bounded s w ->
  replica_hash s !! i = Some e -> Replica.is_valid e.2 = true ->
  incoming w (sock e) = skipped ++ p :: rest ->
  Forall (fun q => streamable (type q) = true) skipped -> streamable (type p) = true ->
  Replica.next_packet_number e.2 + Z.of_nat (length skipped) = next_packet_number s ->
  (length skipped < fuel)%nat ->
  exists s' w',
    receive_loop fuel i s w = (Done (Ok (Some p)), s', w') /\
    next_packet_number s' = next_packet_number s + 1 /\
    (exists e', replica_hash s' !! i = Some e' /\
       Replica.next_packet_number e'.2 = next_packet_number s' /\
       Replica.is_valid e'.2 = true) /\
    (forall j, j <> i -> replica_hash s' !! j = replica_hash s !! j) /\
    incoming w' (sock e) = rest /\
    (forall fd, fd <> sock e -> incoming w' fd = incoming w fd) /\
    trace w' = trace w ++ map (EvReceivePacket (sock e)) (skipped ++ [p]).
Proof.
  revert fuel e s w.
  induction skipped as [|q skipped IH]; intros fuel e s w HI HB Hl Hv Hhead Hsk Hp Hpos Hfuel.
  - destruct fuel as [|fuel]; [simpl in Hfuel; lia|]. simpl in Hhead, Hpos.
    assert (0 <= Replica.next_packet_number e.2 < INT_MAX) as Hrange.
    { pose proof (inv_packets _ HI) as Hn. rewrite Forall_lookup in Hn. specialize (Hn _ _ Hl).
      unfold Bounded in HB. rewrite Forall_lookup in HB. specialize (HB _ _ Hl).
      simpl in Hn, HB. fold (sock e) in HB. rewrite Hhead in HB. simpl in HB. lia. }
    assert (Replica.next_packet_number e.2 = next_packet_number s) as E by lia.
    simpl. rewrite Hl, Hv.
    rewrite (streamable_iteration i e s w p rest Hhead Hp).
    rewrite (proj2 (Z.eqb_eq _ _) E).
    eexists _, _. split; [reflexivity|]. simpl.
    split; [rewrite int_incr_small by (unfold INT_MAX in *; lia); reflexivity|]. split.
    { rewrite list_lookup_alter_eq, Hl. simpl. eexists. split; [reflexivity|]. simpl.
      rewrite !int_incr_small by (unfold INT_MAX in *; lia). split; [lia|exact Hv]. }
    split; [intros j Hj; apply list_lookup_alter_ne; congruence|].
    rewrite Z.eqb_refl. split; [reflexivity|]. split; [|reflexivity].
    intros fd Hfd. destruct (Z.eqb_spec fd (sock e)); [contradiction|reflexivity].
  - destruct fuel as [|fuel]; [simpl in Hfuel; lia|]. simpl in Hhead, Hpos, Hfuel.
    inversion Hsk as [|? ? Hq Hsk']; subst.
    pose proof (receive_iteration_spec i e s w HI HB Hl Hv) as Hit.
    simpl. rewrite Hl, Hv.
    rewrite (streamable_iteration i e s w q _ Hhead Hq) in Hit |- *.
    destruct (Z.eqb_spec (Replica.next_packet_number e.2) (next_packet_number s)) as [E|_];
      [lia|].
    destruct Hit as (HI1 & HB1 & _ & _ & Hg & _).
    set (s1 := update_replica i Replica.incr_next_packet_number s) in *.
    set (w1 := {| incoming := _; trace := trace w ++ _ |}) in *.
    set (e1 := on_replica Replica.incr_next_packet_number e).
    assert (replica_hash s1 !! i = Some e1) as Hl1.
    { unfold s1. simpl. rewrite list_lookup_alter_eq, Hl. reflexivity. }
    assert (0 <= Replica.next_packet_number e.2 < INT_MAX) as Hrange.
    { pose proof (inv_packets _ HI) as Hn. rewrite Forall_lookup in Hn. specialize (Hn _ _ Hl).
      unfold Bounded in HB. rewrite Forall_lookup in HB. specialize (HB _ _ Hl).
      simpl in Hn, HB. fold (sock e) in HB. rewrite Hhead in HB. simpl in HB. lia. }
    destruct (IH fuel e1 s1 w1 HI1 HB1 Hl1) as (s' & w' & Hloop & Hg' & He' & Hoth & Hin & Hout & Htr).
    + exact Hv.
    + unfold w1. simpl. change (sock e1) with (sock e). now rewrite Z.eqb_refl.
    + exact Hsk'.
    + exact Hp.
    + unfold e1. simpl. rewrite int_incr_small by (unfold INT_MAX in *; lia).
      unfold s1. simpl. lia.
    + lia.
    + exists s', w'. split; [exact Hloop|]. split; [rewrite Hg', Hg; reflexivity|].
      split; [exact He'|]. split.
      { intros j Hj. rewrite (Hoth j Hj). unfold s1. simpl.
        apply list_lookup_alter_ne. congruence. }
      split; [exact Hin|]. split.
      { intros fd Hfd. rewrite (Hout fd Hfd). unfold w1. simpl.
        destruct (Z.eqb_spec fd (sock e)); [contradiction|reflexivity]. }
      rewrite Htr. unfold w1. simpl. now rewrite <- app_assoc.
Qed.

Lemma lagging_replicas_Inv : Inv lagging_replicas.
Proof.
  split; simpl.
  - repeat constructor; rewrite ?elem_of_cons, ?elem_of_nil; simpl; lia.
  - repeat constructor.
  - reflexivity.
  - repeat constructor; simpl; lia.
Defined.

Lemma lagging_replica_catches_up_witness :
  exists s' w',
    receive_loop 3 0 lagging_replicas long_streams =
      (Done (Ok (Some (mkPacket Data 3))), s', w') /\
    next_packet_number s' = next_packet_number lagging_replicas + 1 /\
    (exists e', replica_hash s' !! 0%nat = Some e' /\
       Replica.next_packet_number e'.2 = next_packet_number s' /\
       Replica.is_valid e'.2 = true) /\
    (forall j, j <> 0%nat -> replica_hash s' !! j = replica_hash lagging_replicas !! j) /\
    incoming w' (sock first_of_lagging) = [mkPacket EndOfStream 4] /\
    (forall fd, fd <> sock first_of_lagging -> incoming w' fd = incoming long_streams fd) /\
    trace w' = trace long_streams ++
      map (EvReceivePacket (sock first_of_lagging))
          ([mkPacket Data 1; mkPacket Data 2] ++ [mkPacket Data 3]).
Proof.
  apply (lagging_replica_catches_up 3 0 first_of_lagging lagging_replicas long_streams
           [mkPacket Data 1; mkPacket Data 2] (mkPacket Data 3) [mkPacket EndOfStream 4]).
  - exact lagging_replicas_Inv.
  - unfold Bounded. simpl. repeat constructor; simpl; unfold INT_MAX; lia.
  - reflexivity.
  - reflexivity.
  - reflexivity.
  - repeat constructor.
  - reflexivity.
  - reflexivity.
  - simpl. lia.
Defined.

(** ** The exceptions of receivePacket *)

Lemma handle_packet_error i e p s w :
  Inv s -> replica_hash s !! i = Some e -> Replica.is_valid e.2 = true ->
  forall err, (handle_packet i p s w).1.1 = Throw err -> err = NETWORK_ERROR.
Proof.
  intros HI Hl Hv err. unfold handle_packet.
  pose proof (drain_replicas_spec (replica_hash (invalidate i s)) false
                (sendCancel (invalidate i s) w)
                (Inv_socks _ (invalidate_Inv i e s HI Hl Hv))) as Hd.
  unfold drainResidualPackets.
  destruct (type p); simpl; try discriminate;
    destruct (drain_replicas _ _ _) as [[b|err'] w2]; simpl; try discriminate;
    destruct Hd as (_ & _ & ->); congruence.
Qed.

Lemma receive_iteration_error i e s w :
  Inv s -> replica_hash s !! i = Some e -> Replica.is_valid e.2 = true ->
  forall err, (receive_iteration i e.2 s w).1.1 = Throw err -> err = NETWORK_ERROR.
Proof.
  intros HI Hl Hv err. unfold receive_iteration.
  pose proof (conn_receivePacket_spec (Replica.connection e.2) w) as Hrecv.
  destruct (conn_receivePacket (Replica.connection e.2) w) as [[packet|err1] w1].
  2:{ destruct Hrecv as (-> & _). simpl. congruence. }
  pose proof (handle_packet_error i e packet s w1 HI Hl Hv) as Hh.
  destruct (handle_packet i packet s w1) as [[[retry|err2] s2] w2]; simpl in *.
  - destruct (_ && _); discriminate.
  - intros [= <-]. now apply Hh.
Qed.

Lemma receive_loop_error fuel i : forall s w,
  Inv s -> Bounded s w ->
  forall err, (receive_loop fuel i s w).1.1 = Done (Throw err) -> err = NETWORK_ERROR.
Proof.
  induction fuel as [|fuel IH]; intros s w HI HB err; simpl.
  - destruct (replica_hash s !! i) as [e|]; [|discriminate].
    destruct (Replica.is_valid e.2); discriminate.
  - destruct (replica_hash s !! i) as [e|] eqn:Hl; [|discriminate].
    destruct (Replica.is_valid e.2) eqn:Hv; [|discriminate].
    pose proof (receive_iteration_spec i e s w HI HB Hl Hv) as Hit.
    pose proof (receive_iteration_error i e s w HI Hl Hv) as Herr.
    destruct (receive_iteration i e.2 s w) as [[[[p|]|err1] s1] w1]; simpl in *.
    + discriminate.
    + destruct Hit as (HI1 & HB1 & _). now apply IH.
    + intros [= <-]. now apply Herr.
Qed.

(** X13.  On a well-formed coordinator the only exceptions [receivePacket]
    lets out are [NO_AVAILABLE_REPLICA], from the selection, and the failure
    of a read on a connection: a socket that [select] reports is always
    found in the table. *)
Theorem receivePacket_exceptions (fuel : nat) (s : ReplicasConnections) (w : World)
    (err : ErrorCode) :
  Inv s -> Bounded s w ->
  (receivePacket fuel s w).1.1 = Done (Throw err) ->
  err = NO_AVAILABLE_REPLICA \/ err = NETWORK_ERROR.
Proof.
  revert s w. induction fuel as [|fuel IH]; intros s w HI HB; simpl; [discriminate|].
  destruct (pickConnection_spec s w HI) as (res & -> & Hres).
  destruct (after_poll_ok s w HI HB) as (HI1 & HB1 & _).
  destruct (after_poll s w) as [s1 w1]. simpl in *.
  destruct res as [i|err0]; [|destruct Hres as (-> & _); intros [= <-]; now left].
  pose proof (receive_loop_spec fuel i s1 w1 HI1 HB1) as Hloop.
  pose proof (receive_loop_error fuel i s1 w1 HI1 HB1) as Herr.
  destruct (receive_loop fuel i s1 w1) as [[[[[p|]|err1]|] s2] w2]; simpl in *;
    try discriminate.
  - destruct Hloop as (HI2 & HB2 & _). now apply IH.
  - intros [= <-]. right. now apply Herr.
Qed.

Lemma receivePacket_exceptions_witness :
  (receivePacket 3 two_replicas quiet_streams).1.1 = Done (Throw NO_AVAILABLE_REPLICA) /\
  (NO_AVAILABLE_REPLICA = NO_AVAILABLE_REPLICA \/ NO_AVAILABLE_REPLICA = NETWORK_ERROR).
Proof.
  split; [reflexivity|].
  apply (receivePacket_exceptions 3 two_replicas quiet_streams NO_AVAILABLE_REPLICA).
  - exact two_replicas_Inv.
  - unfold Bounded. simpl. repeat constructor; simpl; unfold INT_MAX; lia.
  - reflexivity.
Defined.
